(** * test-util: a verification development

    A shallow embedding of [src/index.ts] (page fetcher, live corpus runner,
    regression test reconciler) and [src/reporter.ts] (report formatter),
    followed by the theorems that settle the specification's claims.

    Modelling conventions.
    - A JavaScript string is a Rocq [string]: the sequence of its code units
      (for text outside ASCII, the units of its UTF-8 form).  Every marker
      the code inspects ([<], [/], [>], word characters, digits) is ASCII, so
      positions between two units of one character never matter.
    - A JavaScript number holding a count or an index is a [nat], a page or
      namespace id a [Z]; a duration in milliseconds is a rational [Q]
      (every finite double is one), and [Math.round] is then exact
      rounding, half up.
    - [undefined] is [None]; a thrown value is an explicit result.
    - The module-level variables [c] and [tests] are fields of one explicit
      module state; the [tests] array holds references to objects, so the
      objects live in a store and the array lists their identities. *)

From Stdlib Require Import Ascii QArith Qround.
From stdpp Require Import base option list strings gmap pretty.


(** ** JavaScript primitives used by the sources *)

Module Js.

(** The line feed and escape characters of the string literals. *)
Definition nl : string := String "010"%char "".
Definition esc : string := String "027"%char "".

(** [String(n)] and [`${n}`] for an integer [n] (below 10^21 in magnitude,
    where JavaScript still prints all digits). *)
Definition str_of_nat (n : nat) : string := pretty n.
Definition str_of_Z (z : Z) : string := pretty z.

(** [Math.round(x)]: the integer closest to [x], ties towards +infinity. *)
Definition round (x : Q) : Z := Qfloor (x + (1 # 2))%Q.

(** [a > b] on numbers. *)
Definition gt (a b : Q) : bool := negb (Qle_bool a b).

(** [' '.repeat(n)] *)
Fixpoint repeat_space (n : nat) : string :=
  match n with
  | O => ""
  | S n => String " " (repeat_space n)
  end.

(** Truthiness of [string | undefined]: a present, non-empty string. *)
Definition truthy (s : option string) : bool :=
  match s with
  | Some (String _ _) => true
  | _ => false
  end.

(** [hay.includes(needle)] *)
Fixpoint includes (needle hay : string) : bool :=
  String.prefix needle hay ||
  match hay with
  | "" => false
  | String _ hay' => includes needle hay'
  end.

End Js.

(** ** The report formatter ([src/reporter.ts]) *)

Module Reporter.

(** An event of the host test runner.  The source reads [type] and casts
    [data] to the shape of that type; every other type falls through the
    switch.  [stack] is [details.error.cause.stack]. *)
Inductive Event : Type :=
| TestComplete (name : string) (nesting : nat) (passed : bool) (duration_ms : Q)
| TestStart (name : string) (nesting : nat)
| TestFail (name : string) (nesting : nat) (stack : option string)
| TestSummary (passed failed skipped : nat) (duration_ms : Q) (file : option string)
| OtherEvent (type : string).

(** The generator's local variables. *)
Record State : Type := mkState {
  output : string;
  cur : string;
  pass : nat;
  fail : nat;
}.

Definition init : State := mkState "" "" 0 0.

Definition getColoredStr (color : nat) (str : string) : string :=
  Js.esc +:+ "[" +:+ Js.str_of_nat color +:+ "m" +:+ str +:+ Js.esc +:+ "[0m".

Definition ms : Q := 75.
Definition f : string := getColoredStr 31 "!".
Definition slow : string := getColoredStr 93 ".".
Definition medium : string := getColoredStr 33 ".".
Definition fast : string := getColoredStr 90 ".".

(** The glyph chosen in the [test:complete] case. *)
Definition symbol (passed : bool) (duration : Q) : string :=
  if negb passed then f
  else if Js.gt duration ms then slow
  else if Js.gt duration (ms / 2)%Q then medium else fast.

(** The text of [`${x}`] for [x : string | undefined]. *)
Definition template_opt (x : option string) : string :=
  match x with
  | Some s => s
  | None => "undefined"
  end.

(** One turn of the [for await] loop: the new locals and the values
    yielded during the turn, in order. *)
Definition step (st : State) (ev : Event) : State * list string :=
  match ev with
  | TestComplete _ nesting passed duration =>
      let symbol := symbol passed duration in
      match nesting with
      | O => (st, [""])
      | S _ =>
          (* [pass++ === 0] is evaluated on this branch only *)
          let first := Nat.eqb (pass st) 0 in
          (mkState (output st) (cur st) (S (pass st)) (fail st),
           [(if first then Js.nl +:+ Js.nl +:+ "  " else "") +:+ symbol])
      end
  | TestStart name nesting =>
      let st' :=
        match nesting with
        | O => mkState (output st) name (pass st) (fail st)
        | S _ => st
        end in
      (st', [""])
  | TestFail name nesting stack =>
      let st' :=
        match nesting with
        | O => st
        | S _ =>
            let fail' := S (fail st) in
            let output1 :=
              output st +:+ "  " +:+ Js.str_of_nat fail' +:+ ") " +:+ cur st +:+ Js.nl in
            let indent := Js.repeat_space (String.length (Js.str_of_nat fail') + 4) in
            let output2 :=
              output1 +:+ indent +:+ "  " +:+ name +:+ Js.nl +:+ indent
                      +:+ template_opt stack +:+ Js.nl +:+ Js.nl in
            mkState output2 (cur st) (pass st) fail'
        end in
      (st', [""])
  | TestSummary passed failed skipped duration file =>
      if negb (Js.truthy file) then
        let passing := getColoredStr 32 (Js.nl +:+ "  " +:+ Js.str_of_nat passed +:+ " passing") in
        let time := getColoredStr 90 ("(" +:+ Js.str_of_Z (Js.round duration) +:+ "ms)") in
        let pending :=
          match skipped with
          | O => ""
          | S _ => getColoredStr 36 (Js.nl +:+ "  " +:+ Js.str_of_nat skipped +:+ " pending")
          end in
        let failing :=
          match failed with
          | O => ""
          | S _ => getColoredStr 31 (Js.nl +:+ "  " +:+ Js.str_of_nat failed +:+ " failing")
          end in
        (st, [" " +:+ Js.nl +:+ passing +:+ " " +:+ time +:+ pending +:+ failing
                  +:+ Js.nl +:+ Js.nl +:+ output st])
      else (st, [])
  | OtherEvent _ => (st, [])
  end.

(** The locals after the loop has consumed [source]. *)
Definition state_after (st : State) (source : list Event) : State :=
  fold_left (λ st ev, fst (step st ev)) source st.

(** The fragments yielded while consuming [source] from the locals [st]. *)
Fixpoint run (st : State) (source : list Event) : list string :=
  match source with
  | [] => []
  | ev :: source => snd (step st ev) ++ run (fst (step st ev)) source
  end.

(** The exported generator, observed on a finite source. *)
Definition reporter (source : list Event) : list string := run init source.

(** The events for which the loop body reaches a [yield]. *)
Definition yields (ev : Event) : bool :=
  match ev with
  | TestSummary _ _ _ _ file => negb (Js.truthy file)
  | OtherEvent _ => false
  | _ => true
  end.

(** A [test:complete] event below the top level. *)
Definition nested_complete (ev : Event) : bool :=
  match ev with
  | TestComplete _ (S _) _ _ => true
  | _ => false
  end.

(** A [test:fail] event below the top level. *)
Definition nested_fail (ev : Event) : bool :=
  match ev with
  | TestFail _ (S _) _ => true
  | _ => false
  end.

(** The name of the latest [test:start] event at nesting 0 among [source],
    or [fallback] when there is none. *)
Definition top_name (fallback : string) (source : list Event) : string :=
  fold_left
    (λ name ev,
       match ev with
       | TestStart name' O => name'
       | _ => name
       end)
    source fallback.

End Reporter.

(** ** The module [src/index.ts] *)

Module Index.

(** *** Data *)

Record Revision : Type := mkRevision {
  content : string;
  contentmodel : string;
}.

Record MediaWikiPage : Type := mkPage {
  pageid : Z;
  title : string;
  ns : Z;
  revisions : option (list Revision);
}.

Record MediaWikiResponse : Type := mkResponse {
  query_pages : list MediaWikiPage;
  continue : option (gmap string string);
}.

(** An element between [map] and [filter]: [content] is still
    [string | false], with [None] standing for [false]. *)
Record MappedPage : Type := mkMapped {
  m_pageid : Z;
  m_title : string;
  m_ns : Z;
  m_content : option string;
}.

Record SimplePage : Type := mkSimple {
  s_pageid : Z;
  s_title : string;
  s_ns : Z;
  s_content : string;
}.

Record Test : Type := mkTest {
  desc : string;
  t_title : option string;
  wikitext : option string;
  parsed : option string;
  html : option string;
  print : option string;
  render : option string;
}.

(** A thrown value: an [assert.AssertionError] (with the two operands of a
    failed comparison), another [Error], or a value that is no [Error].
    [cause] is the [cause.message] property the reconciler assigns. *)
Inductive thrown : Type :=
| AssertionError (actual expected : option (list string)) (cause : option string)
| Error (message : string) (cause : option string)
| NonError (value : string).

Definition instanceof_AssertionError (e : thrown) : bool :=
  match e with
  | AssertionError _ _ _ => true
  | _ => false
  end.

Definition instanceof_Error (e : thrown) : bool :=
  match e with
  | NonError _ => false
  | _ => true
  end.

(** How a call completes. *)
Inductive completion (A : Type) : Type :=
| Normal (a : A)
| Throw (e : thrown).
Arguments Normal {A} a.
Arguments Throw {A} e.

(** The [tests] array: [objs] is the store of the objects loaded from the
    corpus file, [arr] the array itself, as indices into the store. *)
Record Corpus : Type := mkCorpus {
  objs : list Test;
  arr : list nat;
}.

(** The module-level variables. *)
Record Globals : Type := mkGlobals {
  c : option (gmap string string);
  tests : Corpus;
}.

(** The corpus as [require] loads it: one fresh object per entry. *)
Definition load (corpus : list Test) : Corpus :=
  mkCorpus corpus (seq 0 (length corpus)).

(** The value [JSON.stringify] receives: the objects the array refers to. *)
Definition contents (t : Corpus) : list Test :=
  omap (λ id, objs t !! id) (arr t).

Definition apis : list (string * string) :=
  [("维基百科", "https://zh.wikipedia.org/w");
   ("Wikipedia", "https://en.wikipedia.org/w");
   ("ウィキペディア", "https://ja.wikipedia.org/w")].

(** *** The outside world of [getPages]

    A request is the endpoint and the query parameters handed to
    [URLSearchParams]; the constant [User-Agent] header is left out.  The
    network answers the [k]-th request of the process with a decoded
    response, or [None] when [fetch], [json()] or the header's [execSync]
    rejects. *)
Record Request : Type := mkRequest {
  url : string;
  qs : gmap string string;
}.

Definition Network : Type := nat → Request → option MediaWikiResponse.

(** *** [getPages] and [reset] *)

Definition query (site grclimit : option string) (c : option (gmap string string))
  : gmap string string :=
  let grclimit := default "max" grclimit in
  let base : gmap string string :=
    list_to_map
      [("action", "query");
       ("format", "json");
       ("formatversion", "2");
       ("errorformat", "plaintext");
       ("generator", "recentchanges");
       ("grcnamespace",
        if bool_decide (site = Some "MediaWiki") then "0|10|12|100|102|104|106" else "0|10");
       ("grclimit", grclimit);
       ("grctype", "edit|new");
       ("grctoponly", "1");
       ("prop", "revisions");
       ("rvprop", "contentmodel|content")] in
  (* [...c] comes last in the literal: its entries win *)
  default ∅ c ∪ base.

(** The callback of [pages.map]. *)
Definition to_mapped (p : MediaWikiPage) : MappedPage :=
  mkMapped (pageid p) (title p) (ns p)
    (match revisions p with
     | Some (r :: _) =>
         if bool_decide (contentmodel r = "wikitext") then Some (content r) else None
     | _ => None
     end).

(** The type guard of [filter]: [page.content !== false]. *)
Definition is_simple (p : MappedPage) : bool :=
  match m_content p with
  | Some _ => true
  | None => false
  end.

Definition narrow (p : MappedPage) : option SimplePage :=
  mkSimple (m_pageid p) (m_title p) (m_ns p) <$> m_content p.

(** The value [getPages] returns for a decoded response. *)
Definition simple_pages (pages : list MediaWikiPage) : list SimplePage :=
  omap narrow (filter (λ p, is_simple p = true) (to_mapped <$> pages)).

(** The map, the filter and the guard in one pass: the page a raw record
    contributes, if any. *)
Definition first_wikitext (p : MediaWikiPage) : option SimplePage :=
  match revisions p with
  | Some (r :: _) =>
      if decide (contentmodel r = "wikitext")
      then Some (mkSimple (pageid p) (title p) (ns p) (content r))
      else None
  | _ => None
  end.

Definition network_error : thrown := Error "fetch failed" None.

(** [getPages(url, site, grclimit)], from the module variables [g] and the
    requests [sent] so far. *)
Definition getPages (net : Network) (url : string) (site grclimit : option string)
    (g : Globals) (sent : list Request)
  : completion (list SimplePage) * Globals * list Request :=
  let request := mkRequest url (query site grclimit (c g)) in
  match net (length sent) request with
  | None => (Throw network_error, g, sent ++ [request])
  | Some response =>
      (Normal (simple_pages (query_pages response)),
       mkGlobals (continue response) (tests g),
       sent ++ [request])
  end.

Definition reset (g : Globals) : Globals := mkGlobals None (tests g).

(** *** [execute] *)

(** What [execute] writes to the terminal, one constructor per call site,
    in the order of the source: the [console.log] that opens a site, the
    [refreshStdout] of a page, the [console.error] of a page whose parse
    threw, the [console.log] of the slowest page, the [console.error] of
    the outer [catch], and the [console.error] of a site's count. *)
Inductive LogLine : Type :=
| SiteStarted (site : string)
| Progress (i : nat) (title : string)
| ParseFailed (title : string) (e : thrown)
| Worst (title : string) (duration : Q)
| ApiFailed (site : string) (e : thrown)
| SiteFailures (site : string) (failed : nat).

Record World : Type := mkWorld {
  sent : list Request;
  console : list LogLine;
}.

Definition log (line : LogLine) (w : World) : World :=
  mkWorld (sent w) (console w ++ [line]).

(** The variables declared inside the loop over [apis]. *)
Record Locals : Type := mkLocals {
  failed : nat;
  i : nat;
  worst : option (string * Q);
}.

(** [failures.set(site, failed)] on a [Map] kept in insertion order. *)
Fixpoint map_set (site : string) (failed : nat) (failures : list (string * nat))
  : list (string * nat) :=
  match failures with
  | [] => [(site, failed)]
  | (k, v) :: failures =>
      if bool_decide (k = site) then (k, failed) :: failures
      else (k, v) :: map_set site failed failures
  end.

(** Reading a property of [worst!] when [worst] is [undefined]. *)
Definition type_error : thrown :=
  Error "Cannot read properties of undefined (reading 'title')" None.

Section execute.

(** The network, the parser under test, and the time [perf.now()] measures
    for the [i]-th page of a site. *)
Variable net : Network.
Variable parse : string → completion string.
Variable elapsed : string → nat → Q.

(** The body of the loop over the pages of one response. *)
Definition visit (site : string) (st : Locals * World) (page : SimplePage)
  : Locals * World :=
  let '(l, w) := st in
  let w := log (Progress (i l) (s_title page)) w in
  match parse (s_content page) with
  | Normal _ =>
      let duration := elapsed site (i l) in
      let worst' :=
        match worst l with
        | None => Some (s_title page, duration)
        | Some (_, d) =>
            if Js.gt duration d then Some (s_title page, duration) else worst l
        end in
      (mkLocals (failed l) (S (i l)) worst', w)
  | Throw e =>
      (mkLocals (S (failed l)) (S (i l)) (worst l), log (ParseFailed (s_title page) e) w)
  end.

(** The loop [for (let j = 0; j < retry; j++)]; [n] turns remain. *)
Fixpoint rounds (n : nat) (site url : string) (grclimit : option string)
    (l : Locals) (g : Globals) (w : World)
  : completion Locals * Globals * World :=
  match n with
  | O => (Normal l, g, w)
  | S n =>
      let '(r, g, sent') :=
        getPages net (url +:+ "/api.php") (Some site) grclimit g (sent w) in
      let w := mkWorld sent' (console w) in
      match r with
      | Throw e => (Throw e, g, w)
      | Normal pages =>
          let '(l, w) := fold_left (visit site) pages (l, w) in
          rounds n site url grclimit l g w
      end
  end.

(** The body of the loop over [apis]. *)
Definition check_site (retry : nat) (grclimit : option string)
    (st : list (string * nat) * Globals * World) (api : string * string)
  : list (string * nat) * Globals * World :=
  let '(failures, g, w) := st in
  let '(site, url) := api in
  let w := log (SiteStarted site) w in
  let g := reset g in
  match rounds retry site url grclimit (mkLocals 0 0 None) g w with
  | (Normal l, g, w) =>
      let failures :=
        match failed l with
        | O => failures
        | S _ => map_set site (failed l) failures
        end in
      match worst l with
      | Some (title, duration) => (failures, g, log (Worst title duration) w)
      | None => (failures, g, log (ApiFailed site type_error) w)
      end
  | (Throw e, g, w) => (failures, g, log (ApiFailed site e) w)
  end.

Definition aggregate_error (total : nat) : thrown :=
  Error ("共有 " +:+ Js.str_of_nat total +:+ " 个页面解析失败！") None.

(** The tail of [execute], after the loop over the sites. *)
Definition report (failures : list (string * nat)) (w : World)
  : completion unit * World :=
  match failures with
  | [] => (Normal (), w)
  | _ :: _ =>
      let '(total, w) :=
        fold_left
          (λ '(total, w) '(site, failed), (total + failed, log (SiteFailures site failed) w))
          failures (0, w) in
      (Throw (aggregate_error total), w)
  end.

Definition execute_on (sites : list (string * string)) (retry : option nat)
    (grclimit : option string) (g : Globals) (w : World)
  : completion unit * Globals * World :=
  let '(failures, g, w) :=
    fold_left (check_site (default 10 retry) grclimit) sites ([], g, w) in
  let '(r, w) := report failures w in
  (r, g, w).

Definition execute : option nat → option string → Globals → World
  → completion unit * Globals * World :=
  execute_on apis.

End execute.

(** The parse failures a console shows, and the total a [failures] map
    holds. *)
Definition is_parse_failed (line : LogLine) : bool :=
  match line with
  | ParseFailed _ _ => true
  | _ => false
  end.

Definition parse_failures (console : list LogLine) : nat :=
  length (List.filter is_parse_failed console).

Definition total_of (failures : list (string * nat)) : nat :=
  sum_list (snd <$> failures).

(** The sites a console shows as started, and the pages it shows as
    visited. *)
Definition started (console : list LogLine) : list string :=
  omap (λ line, match line with SiteStarted site => Some site | _ => None end) console.

Definition is_progress (line : LogLine) : bool :=
  match line with
  | Progress _ _ => true
  | _ => false
  end.

Definition pages_seen (console : list LogLine) : nat :=
  length (List.filter is_progress console).

(** *** [split]

    [parsed.split(/(?<=<\/>)(?!$)|(?<!^)(?=<\w)/u)], on the code units of
    [parsed]. *)

(** [\w] without the [i] flag: [A-Za-z0-9_]. *)
Definition is_word (ch : ascii) : bool :=
  let n := nat_of_ascii ch in
  (48 <=? n) && (n <=? 57) || (65 <=? n) && (n <=? 90)
  || (n =? 95) || (97 <=? n) && (n <=? 122).

Definition lt_sign : ascii := "<"%char.
Definition slash : ascii := "/"%char.
Definition gt_sign : ascii := ">"%char.

Definition unit_is (ch : ascii) (str : list ascii) (k : nat) : bool :=
  bool_decide (str !! k = Some ch).

(** Does the pattern match (the empty string) at position [q] of [str]?
    First alternative: preceded by [</>] and not at the end of the input;
    second alternative: not at the start and followed by [<] and a word
    character. *)
Definition separator (str : list ascii) (q : nat) : bool :=
  ((3 <=? q) && unit_is lt_sign str (q - 3) && unit_is slash str (q - 2)
   && unit_is gt_sign str (q - 1))
  && negb (q =? length str)
  || negb (q =? 0)
     && (unit_is lt_sign str q
         && match str !! (q + 1) with
            | Some ch => is_word ch
            | None => false
            end).

(** The substring of [str] from [p] inclusive to [q] exclusive. *)
Definition substring (str : list ascii) (p q : nat) : list ascii :=
  take (q - p) (drop p str).

(** The loop of [RegExp.prototype[Symbol.split]] (ECMAScript 22.2.6.14) for
    a pattern that only matches the empty string, so that a match at [q]
    ends at [e = q]: [p] is the start of the pending token, [q] the position
    tried next.  A turn either advances [q] or moves [p] up to [q]; [fuel]
    bounds the number of turns, and two turns per position and one more
    are enough ([split_loop_slices] below).  With the [u] flag the loop
    advances by code points; the pattern cannot match between the units of
    one character, so advancing by units gives the same tokens. *)
Fixpoint split_loop (fuel : nat) (str : list ascii) (p q : nat) : list (list ascii) :=
  match fuel with
  | O => []
  | S fuel =>
      if bool_decide (q < length str) then
        if separator str q then
          if bool_decide (q = p) then split_loop fuel str p (S q)
          else substring str p q :: split_loop fuel str q q
        else split_loop fuel str p (S q)
      else [substring str p (length str)]
  end.

Definition regexp_split (str : list ascii) : list (list ascii) :=
  match str with
  | [] => if separator [] 0 then [] else [[]]
  | _ => split_loop (2 * length str + 1) str 0 0
  end.

Definition units (s : string) : list ascii := String.list_ascii_of_string s.
Definition of_units (u : list ascii) : string := String.string_of_list_ascii u.

(** [s.split(re)] on strings. *)
Definition js_split (s : string) : list string :=
  of_units <$> regexp_split (units s).

(** [split(test)]: [test?.parsed?.split(re)]. *)
Definition split (test : option Test) : option (list string) :=
  match test with
  | Some t =>
      match parsed t with
      | Some s => Some (js_split s)
      | None => None
      end
  | None => None
  end.

(** *** The tokenization rule, stated on its own

    A token boundary lies between a prefix [a] and a rest [b] of the input
    when [a] ends with [</>] and [b] is not empty, or [a] is not empty and
    [b] starts with [<] and a character of the class [cls].  [split_where]
    cuts the input at every boundary and nowhere else. *)

Definition close_marker : list ascii := [lt_sign; slash; gt_sign].

Definition opens_tag (cls : ascii → bool) (b : list ascii) : bool :=
  match b with
  | ch0 :: ch :: _ => bool_decide (ch0 = lt_sign) && cls ch
  | _ => false
  end.

Definition boundary (cls : ascii → bool) (str : list ascii) (q : nat) : bool :=
  let a := take q str in
  let b := drop q str in
  bool_decide (close_marker `suffix_of` a) && negb (bool_decide (b = []))
  || negb (bool_decide (a = [])) && opens_tag cls b.

(** The pieces of [str] from position [p] on, cut at the positions [cuts]. *)
Fixpoint slice_at (str : list ascii) (p : nat) (cuts : list nat) : list (list ascii) :=
  match cuts with
  | [] => [drop p str]
  | q :: cuts => take (q - p) (drop p str) :: slice_at str q cuts
  end.

Definition split_where (cls : ascii → bool) (str : list ascii) : list (list ascii) :=
  slice_at str 0 (List.filter (boundary cls str) (seq 1 (length str - 1))).

Definition split_by_rule (cls : ascii → bool) (s : string) : list string :=
  of_units <$> split_where cls (units s).

(** The rule as the specification words it: a split before [<] and a
    letter. *)
Definition is_letter (ch : ascii) : bool :=
  let n := nat_of_ascii ch in
  (65 <=? n) && (n <=? 90) || (97 <=? n) && (n <=? 122).

Definition spec_split (s : string) : list string := split_by_rule is_letter s.

(** *** [mochaTest] *)

(** What the callback handed to [it] captures: the index [i], the object
    [test] (its identity in the store), [wikitext] and [desc]. *)
Record Closure : Type := mkClosure {
  cl_i : nat;
  cl_test : nat;
  cl_wikitext : string;
  cl_desc : string;
}.

(** The registration loop, [for (let i = n - 1; i >= 0; i--)]: the
    callbacks in the order [it] receives them. *)
Fixpoint register (t : Corpus) (n : nat) : list Closure :=
  match n with
  | O => []
  | S i =>
      match arr t !! i with
      | Some id =>
          match objs t !! id with
          | Some test =>
              match wikitext test with
              | Some (String ch w) =>
                  mkClosure i id (String ch w) (desc test) :: register t i
              | _ => register t i
              end
          | None => register t i
          end
      | None => register t i
      end
  end.

(** The four [delete]s. *)
Definition scrub (t : Test) : Test :=
  mkTest (desc t) None (wikitext t) (parsed t) None None None.

(** [test.parsed = s] *)
Definition set_parsed (s : string) (t : Test) : Test :=
  mkTest (desc t) (t_title t) (wikitext t) (Some s) (html t) (print t) (render t).

Definition with_test (id : nat) (upd : Test → Test) (g : Globals) : Globals :=
  mkGlobals (c g) (mkCorpus (alter upd id (objs (tests g))) (arr (tests g))).

(** [tests.splice(i, 1)] *)
Definition splice (i : nat) (g : Globals) : Globals :=
  mkGlobals (c g) (mkCorpus (objs (tests g)) (delete i (arr (tests g)))).

(** [Object.assign(e, {cause: {message: `\n${wikitext}`}})]; a value that
    is no object is left as it is. *)
Definition annotate (wikitext : string) (e : thrown) : thrown :=
  match e with
  | AssertionError actual expected _ =>
      AssertionError actual expected (Some (Js.nl +:+ wikitext))
  | Error message _ => Error message (Some (Js.nl +:+ wikitext))
  | NonError value => NonError value
  end.

Section mochaTest.

(** The stored expectations and the parser under test. *)
Variable results : list Test.
Variable parse : string → completion string.

(** The [catch] clause. *)
Definition rethrow (cl : Closure) (e : thrown) (g : Globals)
  : completion unit * Globals :=
  let g := if instanceof_AssertionError e then g else splice (cl_i cl) g in
  let e := if instanceof_Error e then annotate (cl_wikitext cl) e else e in
  (Throw e, g).

(** [results.find(({desc: d}) => d === desc)] *)
Definition find_result (desc0 : string) : option Test :=
  List.find (λ r, bool_decide (desc r = desc0)) results.

(** The callback handed to [it]. *)
Definition it_body (cl : Closure) (g : Globals) : completion unit * Globals :=
  let g := with_test (cl_test cl) scrub g in
  match parse (cl_wikitext cl) with
  | Throw e => rethrow cl e g
  | Normal s =>
      let g := with_test (cl_test cl) (set_parsed s) g in
      let actual := split (objs (tests g) !! cl_test cl) in
      let expected := split (find_result (cl_desc cl)) in
      (* [assert.deepStrictEqual] on [string[] | undefined] *)
      if bool_decide (actual = expected) then (Normal (), g)
      else rethrow cl (AssertionError actual expected None) g
  end.

(** The host runs the callbacks one after another in the order of their
    registration and records how each completes. *)
Fixpoint run_tests (cls : list Closure) (g : Globals)
  : list (Closure * completion unit) * Globals :=
  match cls with
  | [] => ([], g)
  | cl :: cls =>
      let '(r, g) := it_body cl g in
      let '(rs, g) := run_tests cls g in
      ((cl, r) :: rs, g)
  end.

(** One run of the suite [mochaTest] describes (without a [beforeFn]): the
    module variables afterwards, the outcome of each registered test, and
    the corpus the [after] hook writes to [test/parserTests.json]. *)
Record Report : Type := mkReport {
  globals : Globals;
  outcomes : list (Closure * completion unit);
  written : list Test;
}.

Definition mochaTest (g : Globals) : Report :=
  let cls := register (tests g) (length (arr (tests g))) in
  let '(rs, g) := run_tests cls g in
  mkReport g rs (contents (tests g)).

End mochaTest.

(** A process that loads [corpus] and runs the suite once. *)
Definition reconcile (results : list Test) (parse : string → completion string)
    (corpus : list Test) : Report :=
  mochaTest results parse (mkGlobals None (load corpus)).

(** *** What one callback does, seen from its test

    These read the effect of [it_body] off the entry it was registered
    for; the theorems below prove that a whole run is their sum. *)

(** The [cause.message] of a thrown value, when it has one. *)
Definition cause_message (e : thrown) : option string :=
  match e with
  | AssertionError _ _ cause => cause
  | Error _ cause => cause
  | NonError _ => None
  end.

Section per_test.

Variable results : list Test.
Variable parse : string → completion string.

(** How the callback with the captures [cl] completes. *)
Definition outcome_of (cl : Closure) : completion unit :=
  match parse (cl_wikitext cl) with
  | Throw e => Throw (annotate (cl_wikitext cl) e)
  | Normal s =>
      let actual := Some (js_split s) in
      let expected := split (find_result results (cl_desc cl)) in
      if bool_decide (actual = expected) then Normal ()
      else Throw (AssertionError actual expected (Some (Js.nl +:+ cl_wikitext cl)))
  end.

(** The entry after the run: untouched when it has no (or an empty)
    [wikitext], else scrubbed, with [parsed] overwritten when the parser
    returned. *)
Definition evaluated (t : Test) : Test :=
  match wikitext t with
  | Some (String ch w) =>
      match parse (String ch w) with
      | Normal s => set_parsed s (scrub t)
      | Throw _ => scrub t
      end
  | _ => t
  end.

(** Whether the entry is still in the array after the run: it is spliced
    out when its callback caught a value that is no [AssertionError], and
    the comparison only ever throws an [AssertionError]. *)
Definition retained (t : Test) : bool :=
  match wikitext t with
  | Some (String ch w) =>
      match parse (String ch w) with
      | Normal _ => true
      | Throw e => instanceof_AssertionError e
      end
  | _ => true
  end.

Definition retained_at (corpus : list Test) (i : nat) : bool :=
  from_option retained true (corpus !! i).

End per_test.

End Index.

(** * Properties of the report formatter *)

Section reporter_facts.
Import Reporter.

Lemma run_app (st : State) (pre post : list Event) :
  run st (pre ++ post) = run st pre ++ run (state_after st pre) post.
Proof.
  revert st. induction pre as [|ev pre IH]; intros st; simpl; [done|].
  by rewrite IH, (assoc_L (++)).
Qed.

Lemma reporter_snoc (pre : list Event) (ev : Event) :
  reporter (pre ++ [ev]) = reporter pre ++ snd (step (state_after init pre) ev).
Proof. unfold reporter. rewrite run_app. simpl. by rewrite (right_id_L [] (++)). Qed.

Lemma step_length (st : State) (ev : Event) :
  length (snd (step st ev)) = if yields ev then 1 else 0.
Proof.
  destruct ev as [? [|?] ? ?|? [|?]|? [|?] ?|? ? ? ? file|?]; simpl; try done.
  by destruct (Js.truthy file).
Qed.

Lemma run_length (st : State) (source : list Event) :
  length (run st source) = length (List.filter yields source).
Proof.
  revert st. induction source as [|ev source IH]; intros st; simpl; [done|].
  rewrite length_app, step_length, IH. by destruct (yields ev).
Qed.

(** The counter [pass] counts the [test:complete] events below the top
    level, whether they passed or not. *)
Lemma pass_state_after (st : State) (source : list Event) :
  pass (state_after st source) = pass st + length (List.filter nested_complete source).
Proof.
  revert st. induction source as [|ev source IH]; intros st; simpl; [lia|].
  unfold state_after in *. simpl. rewrite IH.
  destruct ev as [? [|?] ? ?|? [|?]|? [|?] ?|? ? ? ? file|?]; simpl; try lia.
  destruct (Js.truthy file); simpl; lia.
Qed.

Lemma no_nested_complete_yet (source : list Event) :
  Nat.eqb (pass (state_after init source)) 0 = negb (existsb nested_complete source).
Proof.
  rewrite pass_state_after. simpl.
  induction source as [|ev source IH]; simpl; [done|].
  destruct (nested_complete ev); simpl; [done|]. exact IH.
Qed.

End reporter_facts.

(** C4, as the code has it: a fragment is yielded for every [test:start],
    [test:complete] and [test:fail] event and for every [test:summary]
    event without a file marker, and none for a [test:summary] event that
    carries a file marker or an event of another type; so the number of
    fragments is the number of events of the first kind, and never exceeds
    the number of events consumed. *)
Theorem reporter_fragment_count (source : list Reporter.Event) :
  length (Reporter.reporter source) = length (List.filter Reporter.yields source)
  ∧ length (Reporter.reporter source) ≤ length source.
Proof.
  unfold Reporter.reporter. rewrite run_length. split; [done|].
  induction source as [|ev source IH]; simpl; [done|].
  destruct (Reporter.yields ev); simpl; lia.
Qed.

(** C4 as stated fails: a per-file summary and an event of another type
    are consumed without any fragment being produced. *)
Lemma reporter_silent_events :
  let source :=
    [Reporter.TestSummary 1 0 0 5 (Some "test/a.test.js"); Reporter.OtherEvent "test:pass"] in
  length source = 2 ∧ Reporter.reporter source = [].
Proof. split; reflexivity. Qed.

(** C5, as the code has it: the fragment for a [test:complete] event with
    nesting 1 and [passed = false] is the red [!] glyph, preceded by the
    blank line and indent exactly when no [test:complete] event below the
    top level came before it; and for every [test:complete] event below
    the top level, passed or failed, the prefix is attached exactly to the
    first one of the run. *)
Theorem complete_fragment (pre : list Reporter.Event) (name : string) (d : Q) :
  Reporter.reporter (pre ++ [Reporter.TestComplete name 1 false d])
  = Reporter.reporter pre
    ++ [(if existsb Reporter.nested_complete pre then "" else Js.nl +:+ Js.nl +:+ "  ")
        +:+ Reporter.getColoredStr 31 "!"]
  ∧ Reporter.getColoredStr 31 "!" = Js.esc +:+ "[31m!" +:+ Js.esc +:+ "[0m"
  ∧ ∀ (n : nat) (passed : bool),
      Reporter.reporter (pre ++ [Reporter.TestComplete name (S n) passed d])
      = Reporter.reporter pre
        ++ [(if existsb Reporter.nested_complete pre then "" else Js.nl +:+ Js.nl +:+ "  ")
            +:+ Reporter.symbol passed d].
Proof.
  assert (∀ n passed,
    Reporter.reporter (pre ++ [Reporter.TestComplete name (S n) passed d])
    = Reporter.reporter pre
      ++ [(if existsb Reporter.nested_complete pre then "" else Js.nl +:+ Js.nl +:+ "  ")
          +:+ Reporter.symbol passed d]) as Hgen.
  { intros n passed. rewrite reporter_snoc. simpl.
    rewrite no_nested_complete_yet.
    by destruct (existsb Reporter.nested_complete pre). }
  split; [exact (Hgen 0 false)|]. split; [reflexivity|exact Hgen].
Qed.

(** C5 as stated fails: a failed test that completes first in the run gets
    the prefix in front of its glyph. *)
Lemma first_failed_glyph_prefixed :
  Reporter.reporter [Reporter.TestComplete "case" 1 false 1]
  = [Js.nl +:+ Js.nl +:+ "  " +:+ Js.esc +:+ "[31m!" +:+ Js.esc +:+ "[0m"]
  ∧ Reporter.reporter [Reporter.TestComplete "case" 1 false 1]
    ≠ [Js.esc +:+ "[31m!" +:+ Js.esc +:+ "[0m"].
Proof. split; [reflexivity|discriminate]. Qed.

(** C7: a [test:summary] event without a file marker yields one fragment:
    the pass count between the escape codes of green (32), the duration
    rounded to whole milliseconds between those of dim (90), the pending
    count between those of cyan (36) exactly when [skipped] is not zero,
    the failing count between those of red (31) exactly when [failed] is
    not zero, and then the failure details accumulated so far.  The counts
    and the rounded duration are below 10^21, where JavaScript prints a
    number in plain decimal digits.  For counts 3, 0, 1 and 12.7 ms (the
    decimal, or the double nearest to it) the fragment has [3 passing] in
    green, [(13ms)] in dim, [1 pending] in cyan and no [failing]. *)
Theorem summary_fragment (pre : list Reporter.Event) (passed failed skipped : nat)
    (duration : Q) :
  (Z.of_nat passed < 10 ^ 21)%Z → (Z.of_nat failed < 10 ^ 21)%Z →
  (Z.of_nat skipped < 10 ^ 21)%Z →
  (Z.abs (Qfloor (duration + (1 # 2))) < 10 ^ 21)%Z →
  Reporter.reporter (pre ++ [Reporter.TestSummary passed failed skipped duration None])
  = Reporter.reporter pre
    ++ [" " +:+ Js.nl
        +:+ (Js.esc +:+ "[32m"
             +:+ (Js.nl +:+ "  " +:+ pretty passed +:+ " passing")
             +:+ Js.esc +:+ "[0m")
        +:+ " "
        +:+ (Js.esc +:+ "[90m"
             +:+ ("(" +:+ pretty (Qfloor (duration + (1 # 2))) +:+ "ms)")
             +:+ Js.esc +:+ "[0m")
        +:+ (if decide (skipped = 0) then ""
             else Js.esc +:+ "[36m"
                  +:+ (Js.nl +:+ "  " +:+ pretty skipped +:+ " pending")
                  +:+ Js.esc +:+ "[0m")
        +:+ (if decide (failed = 0) then ""
             else Js.esc +:+ "[31m"
                  +:+ (Js.nl +:+ "  " +:+ pretty failed +:+ " failing")
                  +:+ Js.esc +:+ "[0m")
        +:+ Js.nl +:+ Js.nl
        +:+ Reporter.output (Reporter.state_after Reporter.init pre)]
  ∧ ∃ fragment,
      Reporter.reporter [Reporter.TestSummary 3 0 1 (127 # 10) None] = [fragment]
      ∧ Reporter.reporter
          [Reporter.TestSummary 3 0 1 (3574732204225331 # 281474976710656) None]
        = [fragment]
      ∧ Js.includes "3 passing" fragment = true
      ∧ Js.includes "(13ms)" fragment = true
      ∧ Js.includes "1 pending" fragment = true
      ∧ Js.includes "failing" fragment = false
      ∧ Js.includes
          (Js.esc +:+ "[32m" +:+ Js.nl +:+ "  3 passing" +:+ Js.esc +:+ "[0m") fragment
        = true
      ∧ Js.includes (Js.esc +:+ "[90m(13ms)" +:+ Js.esc +:+ "[0m") fragment = true
      ∧ Js.includes
          (Js.esc +:+ "[36m" +:+ Js.nl +:+ "  1 pending" +:+ Js.esc +:+ "[0m") fragment
        = true
      ∧ Js.includes "[31m" fragment = false.
Proof.
  intros _ _ _ _. split.
  - rewrite reporter_snoc. simpl. by destruct skipped, failed.
  - eexists. split; [reflexivity|]. repeat split; vm_compute; reflexivity.
Qed.

Lemma summary_fragment_witness :
  Reporter.reporter ([] ++ [Reporter.TestSummary 3 0 1 (127 # 10) None])
  = Reporter.reporter []
    ++ [" " +:+ Js.nl
        +:+ (Js.esc +:+ "[32m"
             +:+ (Js.nl +:+ "  " +:+ pretty 3 +:+ " passing")
             +:+ Js.esc +:+ "[0m")
        +:+ " "
        +:+ (Js.esc +:+ "[90m"
             +:+ ("(" +:+ pretty (Qfloor ((127 # 10) + (1 # 2))) +:+ "ms)")
             +:+ Js.esc +:+ "[0m")
        +:+ (if decide (1 = 0) then ""
             else Js.esc +:+ "[36m"
                  +:+ (Js.nl +:+ "  " +:+ pretty 1 +:+ " pending")
                  +:+ Js.esc +:+ "[0m")
        +:+ (if decide (0 = 0) then ""
             else Js.esc +:+ "[31m"
                  +:+ (Js.nl +:+ "  " +:+ pretty 0 +:+ " failing")
                  +:+ Js.esc +:+ "[0m")
        +:+ Js.nl +:+ Js.nl
        +:+ Reporter.output (Reporter.state_after Reporter.init [])]
  ∧ ∃ fragment,
      Reporter.reporter [Reporter.TestSummary 3 0 1 (127 # 10) None] = [fragment]
      ∧ Reporter.reporter
          [Reporter.TestSummary 3 0 1 (3574732204225331 # 281474976710656) None]
        = [fragment]
      ∧ Js.includes "3 passing" fragment = true
      ∧ Js.includes "(13ms)" fragment = true
      ∧ Js.includes "1 pending" fragment = true
      ∧ Js.includes "failing" fragment = false
      ∧ Js.includes
          (Js.esc +:+ "[32m" +:+ Js.nl +:+ "  3 passing" +:+ Js.esc +:+ "[0m") fragment
        = true
      ∧ Js.includes (Js.esc +:+ "[90m(13ms)" +:+ Js.esc +:+ "[0m") fragment = true
      ∧ Js.includes
          (Js.esc +:+ "[36m" +:+ Js.nl +:+ "  1 pending" +:+ Js.esc +:+ "[0m") fragment
        = true
      ∧ Js.includes "[31m" fragment = false.
Proof.
  apply (summary_fragment [] 3 0 1 (127 # 10)); vm_compute; reflexivity.
Defined.

(** * Properties of the page fetcher *)

Section fetcher_facts.
Import Index.

Lemma narrow_to_mapped (p : MediaWikiPage) : narrow (to_mapped p) = first_wikitext p.
Proof.
  unfold narrow, to_mapped, first_wikitext. simpl.
  destruct (revisions p) as [[|r rest]|]; simpl; try done.
  rewrite bool_decide_decide. by destruct (decide _).
Qed.

Lemma simple_pages_omap (pages : list MediaWikiPage) :
  simple_pages pages = omap first_wikitext pages.
Proof.
  unfold simple_pages. induction pages as [|p pages IH]; [done|].
  rewrite fmap_cons, filter_cons.
  change (omap first_wikitext (p :: pages))
    with (from_option (λ y, y :: omap first_wikitext pages)
            (omap first_wikitext pages) (first_wikitext p)).
  rewrite <- narrow_to_mapped, <- IH.
  destruct (decide (is_simple (to_mapped p) = true)) as [Hs|Hs].
  - change (omap narrow (to_mapped p :: ?l))
      with (from_option (λ y, y :: omap narrow l) (omap narrow l) (narrow (to_mapped p))).
    done.
  - assert (narrow (to_mapped p) = None) as ->; [|done].
    unfold narrow, is_simple in *. by destruct (m_content (to_mapped p)).
Qed.

Lemma first_wikitext_Some (p : MediaWikiPage) (sp : SimplePage) :
  first_wikitext p = Some sp
  ↔ ∃ r rest, revisions p = Some (r :: rest) ∧ contentmodel r = "wikitext"
      ∧ sp = mkSimple (pageid p) (title p) (ns p) (content r).
Proof.
  unfold first_wikitext. split.
  - destruct (revisions p) as [[|r rest]|]; try done.
    destruct (decide _); [|done]. intros [= <-]. eauto.
  - intros (r & rest & -> & Hm & ->). by rewrite decide_True.
Qed.

End fetcher_facts.

(** C6, as the code has it: when the request is answered, [getPages]
    returns normally, and a raw page record contributes a page exactly when
    its first revision has the content model [wikitext]; the page carries
    the record's id, title and namespace and that revision's content.
    Records without such a first revision are left out, in silence, and
    the order of the others is kept. *)
Theorem getPages_first_revision (net : Index.Network) (url : string)
    (site grclimit : option string) (g : Index.Globals) (sent : list Index.Request)
    (response : Index.MediaWikiResponse) :
  net (length sent) (Index.mkRequest url (Index.query site grclimit (Index.c g)))
    = Some response →
  ∃ out,
    (Index.getPages net url site grclimit g sent).1.1 = Index.Normal out
    ∧ out = omap Index.first_wikitext (Index.query_pages response)
    ∧ ∀ sp, sp ∈ out ↔
        ∃ p r rest, p ∈ Index.query_pages response
          ∧ Index.revisions p = Some (r :: rest)
          ∧ Index.contentmodel r = "wikitext"
          ∧ sp = Index.mkSimple (Index.pageid p) (Index.title p) (Index.ns p)
                   (Index.content r).
Proof.
  intros Hnet. unfold Index.getPages. rewrite Hnet. simpl.
  eexists. split; [reflexivity|]. split; [apply simple_pages_omap|].
  intros sp. rewrite simple_pages_omap, list_elem_of_omap. split.
  - intros (p & Hp & Hsp). apply first_wikitext_Some in Hsp as (r & rest & ? & ? & ?).
    by exists p, r, rest.
  - intros (p & r & rest & Hp & ? & ? & ?). exists p. split; [done|].
    apply first_wikitext_Some. eauto.
Qed.

Lemma getPages_first_revision_witness :
  let net : Index.Network := λ _ _,
    Some (Index.mkResponse
            [Index.mkPage 7 "Main Page" 0 (Some [Index.mkRevision "''hello''" "wikitext"]);
             Index.mkPage 8 "Common.css" 8 (Some [Index.mkRevision "a {}" "css"])]
            None) in
  ∃ out,
    (Index.getPages net "https://en.wikipedia.org/w/api.php" None None
       (Index.mkGlobals None (Index.load [])) []).1.1 = Index.Normal out
    ∧ out = omap Index.first_wikitext
              [Index.mkPage 7 "Main Page" 0 (Some [Index.mkRevision "''hello''" "wikitext"]);
               Index.mkPage 8 "Common.css" 8 (Some [Index.mkRevision "a {}" "css"])]
    ∧ ∀ sp, sp ∈ out ↔
        ∃ p r rest,
          p ∈ [Index.mkPage 7 "Main Page" 0 (Some [Index.mkRevision "''hello''" "wikitext"]);
               Index.mkPage 8 "Common.css" 8 (Some [Index.mkRevision "a {}" "css"])]
          ∧ Index.revisions p = Some (r :: rest)
          ∧ Index.contentmodel r = "wikitext"
          ∧ sp = Index.mkSimple (Index.pageid p) (Index.title p) (Index.ns p)
                   (Index.content r).
Proof.
  exact (getPages_first_revision
           (λ _ _,
              Some (Index.mkResponse
                      [Index.mkPage 7 "Main Page" 0
                         (Some [Index.mkRevision "''hello''" "wikitext"]);
                       Index.mkPage 8 "Common.css" 8
                         (Some [Index.mkRevision "a {}" "css"])]
                      None))
           "https://en.wikipedia.org/w/api.php" None None
           (Index.mkGlobals None (Index.load [])) [] _ eq_refl).
Defined.

(** C6 as stated fails: a record whose second revision is wikitext has a
    wikitext revision, and is dropped all the same. *)
Lemma later_wikitext_revision_dropped :
  let p :=
    Index.mkPage 9 "Module:Doc" 828
      (Some [Index.mkRevision "return {}" "Scribunto"; Index.mkRevision "text" "wikitext"]) in
  (∃ r, r ∈ default [] (Index.revisions p) ∧ Index.contentmodel r = "wikitext")
  ∧ Index.simple_pages [p] = [].
Proof.
  split; [|reflexivity].
  exists (Index.mkRevision "text" "wikitext"). split; [|reflexivity].
  simpl. set_solver.
Qed.

(** C9: a call of [getPages] leaves the [tests] array alone; when it is
    answered, the token afterwards is the response's [continue] value
    ([None] when it has none) whatever the token was before, and when it is
    not, the token is unchanged; the request it sends carries every entry
    of the current token among its query parameters; and [reset] makes the
    token absent and changes nothing else. *)
Theorem continuation_token (net : Index.Network) (url : string)
    (site grclimit : option string) (g : Index.Globals) (sent : list Index.Request) :
  let request := Index.mkRequest url (Index.query site grclimit (Index.c g)) in
  let g' := (Index.getPages net url site grclimit g sent).1.2 in
  (Index.getPages net url site grclimit g sent).2 = sent ++ [request]
  ∧ default ∅ (Index.c g) ⊆ Index.qs request
  ∧ Index.tests g' = Index.tests g
  ∧ Index.c g' = match net (length sent) request with
                 | Some response => Index.continue response
                 | None => Index.c g
                 end
  ∧ Index.c (Index.reset g) = None
  ∧ Index.tests (Index.reset g) = Index.tests g.
Proof.
  simpl. unfold Index.getPages.
  destruct (net _ _) as [response|]; simpl;
    (repeat split; try done; unfold Index.query; apply map_union_subseteq_l).
Qed.

(** * Properties of the tokenizer *)

Section split_facts.
Import Index.

Lemma substring_to_end (str : list ascii) (p : nat) :
  substring str p (length str) = drop p str.
Proof. unfold substring. apply take_ge. rewrite length_drop. lia. Qed.

(** The loop slices the input at the positions where the pattern matches:
    from a state with a pending token ([p < q]), and from the state just
    after a cut ([p = q]), where the match at [q] itself is skipped. *)
Lemma split_loop_slices (str : list ascii) (k : nat) :
  ∀ p q fuel, q + k = length str → p ≤ q →
    (p < q → 2 * k + 1 < fuel →
       split_loop fuel str p q
       = slice_at str p (List.filter (separator str) (seq q k)))
    ∧ (p = q → 0 < k → 2 * k < fuel →
       split_loop fuel str p q
       = slice_at str p (List.filter (separator str) (seq (S q) (k - 1)))).
Proof.
  induction k as [|k IH]; intros p q fuel Hn Hpq.
  - split; [|lia]. intros _ Hfuel. destruct fuel as [|fuel]; [lia|]. simpl.
    rewrite bool_decide_false by lia. by rewrite substring_to_end.
  - assert (∀ p' fuel', p' ≤ q → 2 * k + 1 < fuel' →
        split_loop fuel' str p' (S q)
        = slice_at str p' (List.filter (separator str) (seq (S q) k))) as Hnext.
    { intros p' fuel' ? ?. apply (IH p' (S q) fuel'); lia. }
    assert (∀ fuel', 2 * S k < fuel' →
        split_loop fuel' str q q
        = slice_at str q (List.filter (separator str) (seq (S q) k))) as Hcut.
    { intros [|fuel'] ?; [lia|]. simpl.
      rewrite bool_decide_true by lia. rewrite bool_decide_true by done.
      destruct (separator str q); apply Hnext; lia. }
    split.
    + intros Hlt Hfuel. destruct fuel as [|fuel]; [lia|]. simpl.
      rewrite bool_decide_true by lia.
      destruct (separator str q) eqn:Hsep.
      * rewrite bool_decide_false by lia. simpl. f_equal. apply Hcut. lia.
      * apply Hnext; lia.
    + intros -> _ Hfuel. rewrite Hcut by done. simpl. by rewrite Nat.sub_0_r.
Qed.

Lemma regexp_split_slices (str : list ascii) :
  regexp_split str
  = slice_at str 0 (List.filter (separator str) (seq 1 (length str - 1))).
Proof.
  destruct str as [|ch str]; [reflexivity|].
  unfold regexp_split.
  apply (split_loop_slices (ch :: str) (length (ch :: str)) 0 0); simpl; lia.
Qed.

Lemma bool_eq_of_iff (b1 b2 : bool) : (b1 = true ↔ b2 = true) → b1 = b2.
Proof. destruct b1, b2; intuition congruence. Qed.

Lemma close_marker_lookbehind (str : list ascii) (q : nat) :
  q ≤ length str →
  (3 <=? q) && unit_is lt_sign str (q - 3) && unit_is slash str (q - 2)
    && unit_is gt_sign str (q - 1)
  = bool_decide (close_marker `suffix_of` take q str).
Proof.
  intros Hq. apply bool_eq_of_iff.
  rewrite !andb_true_iff, Nat.leb_le, bool_decide_eq_true.
  unfold unit_is. rewrite !bool_decide_eq_true. split.
  - intros [[[H3 Ha] Hb] Hc]. exists (take (q - 3) str).
    replace q with (S (S (S (q - 3)))) at 1 by lia.
    rewrite (take_S_r _ (S (S (q - 3))) gt_sign)
      by (rewrite <- Hc; f_equal; lia).
    rewrite (take_S_r _ (S (q - 3)) slash) by (rewrite <- Hb; f_equal; lia).
    rewrite (take_S_r _ (q - 3) lt_sign) by done.
    by rewrite <- !(assoc_L (++)).
  - intros [k Hk].
    assert (q = length k + 3) as ->.
    { apply (f_equal length) in Hk. rewrite length_take_le, length_app in Hk by done.
      simpl in Hk. lia. }
    assert (∀ j, j < 3 → str !! (length k + j) = close_marker !! j) as Hl.
    { intros j Hj. rewrite <- (lookup_take_lt _ (length k + 3)) by lia.
      rewrite Hk. by rewrite lookup_app_r, Nat.add_comm, Nat.add_sub by lia. }
    repeat split; [lia|..].
    + replace (length k + 3 - 3) with (length k + 0) by lia. by rewrite Hl by lia.
    + replace (length k + 3 - 2) with (length k + 1) by lia. by rewrite Hl by lia.
    + replace (length k + 3 - 1) with (length k + 2) by lia. by rewrite Hl by lia.
Qed.

Lemma tag_lookahead (cls : ascii → bool) (str : list ascii) (q : nat) :
  unit_is lt_sign str q
  && match str !! (q + 1) with
     | Some ch => cls ch
     | None => false
     end
  = opens_tag cls (drop q str).
Proof.
  unfold unit_is, opens_tag.
  replace (str !! q) with (drop q str !! 0) by (rewrite lookup_drop; f_equal; lia).
  replace (str !! (q + 1)) with (drop q str !! 1) by by rewrite lookup_drop.
  destruct (drop q str) as [|ch0 [|ch rest]]; simpl; try done.
  - by rewrite andb_false_r.
  - f_equal. apply bool_decide_ext. split; [by intros [= ->]|by intros ->].
Qed.

(** At a position inside the input or at one of its ends, the pattern
    matches exactly at the boundaries of the rule for word characters. *)
Lemma separator_boundary (str : list ascii) (q : nat) :
  q ≤ length str → separator str q = boundary is_word str q.
Proof.
  intros Hq. unfold separator, boundary.
  rewrite close_marker_lookbehind, tag_lookahead by done.
  f_equal; f_equal; f_equal.
  - apply bool_eq_of_iff. rewrite Nat.eqb_eq, bool_decide_eq_true. split.
    + intros ->. apply drop_all.
    + intros Hd%drop_nil_inv. lia.
  - apply bool_eq_of_iff. rewrite Nat.eqb_eq, bool_decide_eq_true. split.
    + by intros ->.
    + intros Ht%(f_equal length). rewrite length_take_le in Ht by done. done.
Qed.

Lemma regexp_split_where (str : list ascii) :
  regexp_split str = split_where is_word str.
Proof.
  rewrite regexp_split_slices. unfold split_where. f_equal.
  apply List.filter_ext_in. intros q [_ Hq]%in_seq.
  apply separator_boundary. lia.
Qed.

(** Facts about slicing at the filtered positions of a range. *)
Section slices.
Variable str : list ascii.
Variable cut : nat → bool.

Lemma concat_slices (k : nat) :
  ∀ p q, p ≤ q → concat (slice_at str p (List.filter cut (seq q k))) = drop p str.
Proof.
  induction k as [|k IH]; intros p q Hpq; simpl.
  - by rewrite (right_id_L [] (++)).
  - destruct (cut q); [|apply IH; lia]. simpl. rewrite (IH q (S q)) by lia.
    replace (drop q str) with (drop (q - p) (drop p str))
      by (rewrite drop_drop; f_equal; lia).
    apply take_drop.
Qed.

Lemma slices_nonempty (k : nat) :
  ∀ p q, p < q → q + k = length str →
    Forall (λ t, t ≠ []) (slice_at str p (List.filter cut (seq q k))).
Proof.
  induction k as [|k IH]; intros p q Hpq Hn; simpl.
  - constructor; [|constructor]. intros Hd%drop_nil_inv. lia.
  - destruct (cut q); [|apply IH; lia]. simpl. constructor; [|apply IH; lia].
    intros Ht%(f_equal length). rewrite length_take_le in Ht; [simpl in Ht; lia|].
    rewrite length_drop. lia.
Qed.

(** The ends of the proper prefixes of the token list are the cut
    positions. *)
Lemma slices_offsets (k : nat) :
  ∀ p q j, p < q → q + k ≤ length str →
    let toks := slice_at str p (List.filter cut (seq q k)) in
    (∃ i, 0 < i < length toks ∧ p + length (concat (take i toks)) = j)
    ↔ q ≤ j < q + k ∧ cut j = true.
Proof.
  induction k as [|k IH]; intros p q j Hpq Hn; simpl.
  - split; [intros (i & ? & _); lia|lia].
  - destruct (cut q) eqn:Hq.
    + simpl. specialize (IH q (S q) j). simpl in IH.
      assert (length (take (q - p) (drop p str)) = q - p) as Hlen.
      { rewrite length_take_le; [done|]. rewrite length_drop. lia. }
      split.
      * intros ([|[|i]] & Hi & Hj); [lia|..].
        -- simpl in Hj. rewrite (right_id_L [] (++)), Hlen in Hj.
           split; [lia|]. by replace j with q by lia.
        -- simpl in Hj. rewrite length_app, Hlen in Hj.
           destruct IH as [IH _]; [lia..|].
           destruct IH as [? ?]; [|split; [lia|done]].
           exists (S i). split; [simpl in *; lia|]. simpl. lia.
      * intros [Hj Hc]. destruct (decide (j = q)) as [->|Hne].
        -- exists 1. split; [simpl; split; [lia|]|].
           ++ destruct (List.filter cut (seq (S q) k)); simpl; lia.
           ++ simpl. rewrite (right_id_L [] (++)), Hlen. lia.
        -- destruct IH as [_ IH]; [lia..|].
           destruct IH as (i & Hi & Hi'); [split; [lia|done]|].
           exists (S i). split; [simpl; lia|].
           simpl. rewrite length_app, Hlen. lia.
    + rewrite (IH p (S q) j) by lia. split.
      * intros [? ?]. split; [lia|done].
      * intros [? ?]. split; [|done].
        destruct (decide (j = q)) as [->|]; [congruence|lia].
Qed.

End slices.

(** Strings and their code units. *)
Lemma units_of_units (u : list ascii) : units (of_units u) = u.
Proof. apply String.list_ascii_of_string_of_list_ascii. Qed.

Lemma of_units_units (s : string) : of_units (units s) = s.
Proof. apply String.string_of_list_ascii_of_string. Qed.

Lemma units_app (a b : string) : units (a +:+ b) = units a ++ units b.
Proof.
  induction a as [|ch a IH]; [done|].
  change (String ch a +:+ b) with (String ch (a +:+ b)).
  unfold units in *. simpl. by rewrite IH.
Qed.

Lemma of_units_app (u v : list ascii) : of_units (u ++ v) = of_units u +:+ of_units v.
Proof.
  rewrite <- (of_units_units (of_units u +:+ of_units v)).
  by rewrite units_app, !units_of_units.
Qed.

Lemma units_nil (s : string) : units s = [] ↔ s = "".
Proof. destruct s; [done|]. split; discriminate. Qed.

Lemma concat_of_units (l : list (list ascii)) :
  String.concat "" (of_units <$> l) = of_units (concat l).
Proof.
  induction l as [|u l IH]; [done|].
  rewrite fmap_cons. cbn [concat]. rewrite of_units_app, <- IH.
  destruct l as [|v l]; [|done].
  change (of_units u = of_units u +:+ "").
  rewrite <- (of_units_units (of_units u +:+ "")), units_app.
  change (units "") with (@nil ascii).
  by rewrite (right_id_L [] (++)), of_units_units.
Qed.

Lemma concat_split_where (cls : ascii → bool) (str : list ascii) :
  concat (split_where cls str) = str.
Proof. unfold split_where. by rewrite concat_slices by lia. Qed.

Lemma split_where_nonempty (cls : ascii → bool) (str : list ascii) :
  str ≠ [] → Forall (λ t, t ≠ []) (split_where cls str).
Proof.
  intros Hne. apply slices_nonempty; [lia|].
  destruct str; [done|]. simpl. lia.
Qed.

(** The proper prefixes of the token list are the prefixes of the input
    that end at a boundary. *)
Lemma split_where_prefixes (cls : ascii → bool) (a b : list ascii) :
  let toks := split_where cls (a ++ b) in
  (∃ i, 0 < i < length toks ∧ concat (take i toks) = a)
  ↔ (close_marker `suffix_of` a ∧ b ≠ []) ∨ (a ≠ [] ∧ opens_tag cls b = true).
Proof.
  intros toks.
  assert (∀ i, concat (take i toks) = a ↔ 0 + length (concat (take i toks)) = length a)
    as Hpre.
  { intros i. split; [by intros ->|]. intros Hlen.
    assert (concat (take i toks) ++ concat (drop i toks) = a ++ b) as Happ.
    { rewrite <- concat_app, take_drop. apply concat_split_where. }
    by apply app_inj_1 in Happ as [? _]. }
  assert (boundary cls (a ++ b) (length a) = true
          ↔ (close_marker `suffix_of` a ∧ b ≠ []) ∨ (a ≠ [] ∧ opens_tag cls b = true))
    as Hb.
  { unfold boundary. rewrite take_app_length, drop_app_length.
    rewrite orb_true_iff, !andb_true_iff, !negb_true_iff, !bool_decide_eq_true,
      !bool_decide_eq_false. done. }
  rewrite <- Hb. clear Hb.
  destruct (decide (a ++ b = [])) as [Hnil|Hne].
  - apply app_eq_nil in Hnil as [-> ->]. split; [|done].
    intros (i & Hi & _). cbn in Hi. lia.
  - assert (0 < length (a ++ b)) by (destruct (a ++ b); [done|simpl; lia]).
    setoid_rewrite Hpre. unfold toks, split_where.
    rewrite (slices_offsets (a ++ b) (boundary cls (a ++ b)) (length (a ++ b) - 1) 0 1)
      by lia.
    split; [by intros [_ ?]|]. intros Hb. split; [|done].
    rewrite length_app.
    unfold boundary in Hb. rewrite take_app_length, drop_app_length in Hb.
    apply orb_true_iff in Hb as [Hb|Hb]; apply andb_true_iff in Hb as [H1 H2].
    + apply bool_decide_eq_true in H1 as [k ->].
      apply negb_true_iff, bool_decide_eq_false in H2.
      rewrite length_app. destruct b; [done|]. simpl. lia.
    + apply negb_true_iff, bool_decide_eq_false in H1.
      destruct a; [done|]. destruct b; [done|]. simpl. lia.
Qed.

End split_facts.

(** C1, as the code has it: [split] cuts the string after every [</>] that
    is not at its end and before every [<] followed by a word character
    (an ASCII letter, a digit or an underscore) that is not at its start,
    and nowhere else; the tokens concatenate to the input;
    ["<a>x</>text<b>y"] gives the three tokens ["<a>x</>"], ["text"],
    ["<b>y"]; and an input that ends in [</>] has no empty token. *)
Theorem split_tokenization (s : string) :
  Index.js_split s = Index.split_by_rule Index.is_word s
  ∧ String.concat "" (Index.js_split s) = s
  ∧ (∀ a b : string, s = a +:+ b →
       ((∃ k, 0 < k < length (Index.js_split s)
              ∧ String.concat "" (take k (Index.js_split s)) = a)
        ↔ (((∃ a', a = a' +:+ "</>") ∧ b ≠ "")
           ∨ (a ≠ ""
              ∧ ∃ ch b', b = String "<"%char (String ch b') ∧ Index.is_word ch = true))))
  ∧ ("" ∉ Index.js_split (s +:+ "</>"))
  ∧ Index.js_split "<a>x</>text<b>y" = ["<a>x</>"; "text"; "<b>y"]
  ∧ Index.js_split "<a>x</>" = ["<a>x</>"].
Proof.
  assert (∀ s, Index.js_split s = Index.split_by_rule Index.is_word s) as Hrule.
  { intros s'. unfold Index.js_split, Index.split_by_rule.
    by rewrite regexp_split_where. }
  split; [apply Hrule|]. split; [|split; [|split; [|split; reflexivity]]].
  - rewrite Hrule. unfold Index.split_by_rule.
    by rewrite concat_of_units, concat_split_where, of_units_units.
  - intros a b ->. rewrite Hrule. unfold Index.split_by_rule.
    rewrite units_app, length_fmap.
    transitivity
      (∃ i, 0 < i < length (Index.split_where Index.is_word (Index.units a ++ Index.units b))
            ∧ concat (take i (Index.split_where Index.is_word
                                (Index.units a ++ Index.units b)))
              = Index.units a).
    { split; intros (k & Hk & Hc); exists k; (split; [done|]);
        rewrite <- fmap_take, concat_of_units in *.
      - apply (f_equal Index.units) in Hc. by rewrite units_of_units in Hc.
      - rewrite Hc. by rewrite of_units_units. }
    assert (Index.close_marker `suffix_of` Index.units a ↔ ∃ a', a = a' +:+ "</>") as Ha1.
    { split.
      - intros [k Hk]. exists (Index.of_units k).
        rewrite <- (of_units_units a), Hk. apply of_units_app.
      - intros [a' ->]. exists (Index.units a'). apply units_app. }
    assert (Index.opens_tag Index.is_word (Index.units b) = true
            ↔ ∃ ch b', b = String "<"%char (String ch b') ∧ Index.is_word ch = true)
      as Hb2.
    { destruct b as [|ch0 [|ch b']]; cbn.
      - split; [done|]. by intros (? & ? & ? & _).
      - split; [done|]. by intros (? & ? & ? & _).
      - rewrite andb_true_iff, bool_decide_eq_true. split.
        + intros [-> ?]. eauto.
        + intros (? & ? & [= -> -> ->] & ?). done. }
    rewrite split_where_prefixes, Ha1, Hb2, !units_nil. done.
  - rewrite Hrule. unfold Index.split_by_rule. intros Hin.
    apply list_elem_of_fmap in Hin as (t & Ht & Hin).
    assert (Index.units (s +:+ "</>") ≠ []) as Hne.
    { rewrite units_app. by destruct (Index.units s). }
    pose proof (split_where_nonempty Index.is_word _ Hne) as Hall.
    rewrite Forall_forall in Hall. apply (Hall t Hin).
    rewrite <- (units_of_units t), <- Ht. done.
Qed.

(** C1 as stated fails: the pattern's word class holds digits and the
    underscore too, so the code splits before [<1] where the rule with
    letters alone does not. *)
Lemma split_before_digit :
  Index.js_split "x<1" = ["x"; "<1"] ∧ Index.spec_split "x<1" = ["x<1"].
Proof. split; reflexivity. Qed.

(** * The live corpus runner *)

(** C8 on a concrete run.  The first request to the first site returns one
    page, whose parse throws; the next request fails.  The failure counted
    so far lives in the [try] block that the rejection leaves, so it is
    never entered into [failures]: the parse failure is logged, and
    [execute] returns normally.  When the second request is answered
    instead, the same parse failure makes [execute] throw the aggregate
    error with total 1. *)
Theorem execute_forgets_failures_on_api_error :
  let page := Index.mkPage 1 "A" 0 (Some [Index.mkRevision "{{" "wikitext"]) in
  let crash := Index.Error "unexpected end of input" None in
  let parse : string → Index.completion string := λ _, Index.Throw crash in
  let elapsed : string → nat → Q := λ _ _, 1%Q in
  let g := Index.mkGlobals None (Index.load []) in
  let w := Index.mkWorld [] [] in
  let lost : Index.Network := λ k _,
    match k with
    | 0 => Some (Index.mkResponse [page] None)
    | _ => None
    end in
  let kept : Index.Network := λ k _,
    match k with
    | 0 => Some (Index.mkResponse [page] None)
    | 1 => Some (Index.mkResponse [] None)
    | _ => None
    end in
  ((Index.execute lost parse elapsed (Some 2) None g w).1.1 = Index.Normal ()
   ∧ Index.ParseFailed "A" crash
       ∈ Index.console (Index.execute lost parse elapsed (Some 2) None g w).2)
  ∧ (Index.execute kept parse elapsed (Some 2) None g w).1.1
    = Index.Throw (Index.aggregate_error 1).
Proof.
  split; [split|]; [reflexivity| |reflexivity].
  vm_compute. repeat constructor.
Qed.

Section execute_facts.
Import Index.

Variable net : Network.
Variable parse : string → completion string.
Variable elapsed : string → nat → Q.

Lemma parse_failures_log (line : LogLine) (w : World) :
  parse_failures (console (log line w))
  = parse_failures (console w) + (if is_parse_failed line then 1 else 0).
Proof.
  unfold parse_failures, log. simpl. rewrite List.filter_app, length_app. simpl.
  by destruct (is_parse_failed line).
Qed.

(** Each page adds as many failure lines to the console as it adds to the
    counter [failed]. *)
Lemma visit_counts (site : string) (l : Locals) (w : World) (page : SimplePage) :
  failed (visit parse elapsed site (l, w) page).1
    + parse_failures (console w)
  = failed l + parse_failures (console (visit parse elapsed site (l, w) page).2)
  ∧ failed l ≤ failed (visit parse elapsed site (l, w) page).1.
Proof.
  unfold visit. destruct (parse (s_content page)); cbn [fst snd failed];
    rewrite !parse_failures_log; cbn [is_parse_failed]; lia.
Qed.

Lemma visits_count (site : string) (pages : list SimplePage) :
  ∀ l w,
    failed (fold_left (visit parse elapsed site) pages (l, w)).1
      + parse_failures (console w)
    = failed l
      + parse_failures (console (fold_left (visit parse elapsed site) pages (l, w)).2)
    ∧ failed l ≤ failed (fold_left (visit parse elapsed site) pages (l, w)).1.
Proof.
  induction pages as [|page pages IH]; intros l w; cbn [fold_left fst snd]; [lia|].
  pose proof (visit_counts site l w page) as H.
  destruct (visit parse elapsed site (l, w) page) as [l1 w1]. cbn [fst snd] in H.
  specialize (IH l1 w1). lia.
Qed.

(** The rounds of one site: when they all complete, the counter [failed]
    has grown by the failure lines written; a rejected request only ever
    throws the network's error. *)
Lemma rounds_counts (n : nat) (site url : string) (grclimit : option string) :
  ∀ l g w,
    match (rounds net parse elapsed n site url grclimit l g w).1.1 with
    | Normal l' =>
        failed l' + parse_failures (console w)
        = failed l
          + parse_failures (console (rounds net parse elapsed n site url grclimit l g w).2)
    | Throw e =>
        parse_failures (console w)
        ≤ parse_failures (console (rounds net parse elapsed n site url grclimit l g w).2)
    end.
Proof.
  induction n as [|n IH]; intros l g w; cbn [rounds fst snd]; [lia|].
  unfold getPages. destruct (net _ _) as [response|]; cbn [fst snd console]; [|lia].
  pose proof (visits_count site (simple_pages (query_pages response)) l
                (mkWorld (sent w ++ [mkRequest (url +:+ "/api.php")
                                       (query (Some site) grclimit (c g))])
                   (console w))) as H.
  destruct (fold_left _ _ _) as [l1 w1]. cbn [fst snd console] in H.
  specialize (IH l1 (mkGlobals (continue response) (tests g)) w1).
  destruct (rounds _ _ _ _ _ _ _ _ _ _).1.1; lia.
Qed.

Lemma rounds_answered (n : nat) (site url : string) (grclimit : option string) :
  (∀ k request, is_Some (net k request)) →
  ∀ l g w, ∃ l', (rounds net parse elapsed n site url grclimit l g w).1.1 = Normal l'.
Proof.
  intros Hnet. induction n as [|n IH]; intros l g w; cbn [rounds fst snd]; [eauto|].
  unfold getPages. destruct (Hnet (length (sent w))
    (mkRequest (url +:+ "/api.php") (query (Some site) grclimit (c g)))) as [response ->].
  destruct (fold_left _ _ _) as [l1 w1]. apply IH.
Qed.

Lemma map_set_fresh (site : string) (n : nat) (failures : list (string * nat)) :
  site ∉ failures.*1 → map_set site n failures = failures ++ [(site, n)].
Proof.
  induction failures as [|[k v] failures IH]; intros Hfresh; [done|]. simpl.
  rewrite fmap_cons, not_elem_of_cons in Hfresh. destruct Hfresh as [Hne Hfresh].
  rewrite bool_decide_false by done. by rewrite IH.
Qed.

Lemma total_of_app (failures more : list (string * nat)) :
  total_of (failures ++ more) = total_of failures + total_of more.
Proof.
  unfold total_of. induction failures as [|kv failures IH]; [done|].
  rewrite <- app_comm_cons, !fmap_cons. cbn [sum_list sum_list_with].
  rewrite IH. lia.
Qed.

(** The body of the loop over the sites: what enters [failures] is at most
    what the console shows, and exactly that when every request is
    answered. *)
Lemma check_site_counts (retry : nat) (grclimit : option string)
    (failures : list (string * nat)) (g : Globals) (w : World) (site url : string) :
  site ∉ failures.*1 → Forall (λ kv, 0 < kv.2) failures →
  let st := check_site net parse elapsed retry grclimit (failures, g, w) (site, url) in
  total_of st.1.1 + parse_failures (console w)
    ≤ total_of failures + parse_failures (console st.2)
  ∧ ((∀ k request, is_Some (net k request)) →
     total_of st.1.1 + parse_failures (console w)
     = total_of failures + parse_failures (console st.2))
  ∧ Forall (λ kv, 0 < kv.2) st.1.1
  ∧ st.1.1.*1 ⊆ site :: failures.*1.
Proof.
  intros Hfresh Hpos. unfold check_site. cbn zeta.
  pose proof (rounds_counts retry site url grclimit (mkLocals 0 0 None) (reset g)
                (log (SiteStarted site) w)) as Hc.
  pose proof (λ H, rounds_answered retry site url grclimit H (mkLocals 0 0 None) (reset g)
                (log (SiteStarted site) w)) as Ha.
  rewrite parse_failures_log in Hc. cbn [is_parse_failed failed] in Hc.
  destruct (rounds _ _ _ _ _ _ _ _ _ _) as [[[l'|e] g'] w']; cbn [fst snd] in *.
  - assert (total_of (match failed l' with
                      | 0 => failures
                      | S _ => map_set site (failed l') failures
                      end) = total_of failures + failed l'
            ∧ Forall (λ kv, 0 < kv.2)
                (match failed l' with
                 | 0 => failures
                 | S _ => map_set site (failed l') failures
                 end)
            ∧ (match failed l' with
               | 0 => failures
               | S _ => map_set site (failed l') failures
               end).*1 ⊆ site :: failures.*1) as (Ht & Hp & Hk).
    { destruct (failed l') as [|n] eqn:Hf.
      - split; [lia|]. split; [done|]. intros x Hx. by apply list_elem_of_further.
      - rewrite map_set_fresh by done. split; [|split].
        + rewrite total_of_app. change (total_of [(site, S n)]) with (S n + 0). lia.
        + apply Forall_app. split; [done|]. apply Forall_singleton. simpl. lia.
        + rewrite fmap_app. intros x [Hx|Hx%list_elem_of_singleton]%elem_of_app.
          * by apply list_elem_of_further.
          * rewrite Hx. apply list_elem_of_here. }
    destruct (worst l') as [[title duration]|]; cbn [fst snd];
      rewrite parse_failures_log; cbn [is_parse_failed];
      (split; [lia|]); (split; [intros _; lia|]); done.
  - rewrite parse_failures_log. cbn [is_parse_failed].
    split; [lia|].
    split; [|split; [done|intros x Hx; by apply list_elem_of_further]].
    intros Hnet. destruct (Ha Hnet) as [? [=]].
Qed.

Lemma sites_counts (retry : nat) (grclimit : option string)
    (sites : list (string * string)) :
  ∀ failures g w,
    NoDup sites.*1 → (∀ site, site ∈ sites.*1 → site ∉ failures.*1) →
    Forall (λ kv, 0 < kv.2) failures →
    let st := fold_left (check_site net parse elapsed retry grclimit) sites (failures, g, w) in
    total_of st.1.1 + parse_failures (console w)
      ≤ total_of failures + parse_failures (console st.2)
    ∧ ((∀ k request, is_Some (net k request)) →
       total_of st.1.1 + parse_failures (console w)
       = total_of failures + parse_failures (console st.2))
    ∧ Forall (λ kv, 0 < kv.2) st.1.1.
Proof.
  induction sites as [|[site url] sites IH]; intros failures g w Hnd Hfresh Hpos.
  { cbn [fold_left fst snd]. split; [lia|]. split; [lia|done]. }
  rewrite fmap_cons in Hnd. apply NoDup_cons in Hnd as [Hsite Hnd].
  cbn [fold_left].
  destruct (check_site_counts retry grclimit failures g w site url) as (H1 & H2 & H3 & H4);
    [apply Hfresh, list_elem_of_here|done|].
  destruct (check_site _ _ _ _ _ _ _) as [[f1 g1] w1]. cbn [fst snd] in *.
  destruct (IH f1 g1 w1 Hnd) as (I1 & I2 & I3); [|done|].
  { intros s Hs Hin. apply H4, elem_of_cons in Hin as [->|Hin]; [done|].
    by apply (Hfresh s); [apply list_elem_of_further|]. }
  cbn zeta. split; [lia|]. split; [|done].
  intros Hnet. specialize (H2 Hnet). specialize (I2 Hnet). lia.
Qed.

Lemma report_spec (failures : list (string * nat)) (w : World) :
  Forall (λ kv, 0 < kv.2) failures →
  (report failures w).1
  = (if decide (total_of failures = 0) then Normal ()
     else Throw (aggregate_error (total_of failures)))
  ∧ parse_failures (console (report failures w).2) = parse_failures (console w).
Proof.
  intros Hpos.
  assert (∀ l t0 w0,
    (fold_left (λ '(total, w) '(site, failed),
                  (total + failed, log (SiteFailures site failed) w)) l (t0, w0)).1
    = t0 + total_of l
    ∧ parse_failures
        (console (fold_left (λ '(total, w) '(site, failed),
                    (total + failed, log (SiteFailures site failed) w)) l (t0, w0)).2)
      = parse_failures (console w0)) as Hfold.
  { induction l as [|[site n] l IH]; intros t0 w0; cbn [fold_left].
    - split; [unfold total_of; simpl; lia|done].
    - destruct (IH (t0 + n) (log (SiteFailures site n) w0)) as [-> ->].
      rewrite parse_failures_log. cbn [is_parse_failed].
      change (total_of ((site, n) :: l)) with (n + total_of l). lia. }
  destruct failures as [|[site n] failures]; [done|].
  apply Forall_cons in Hpos as [Hn _]. simpl in Hn.
  assert (total_of ((site, n) :: failures) ≠ 0)
    by (change (total_of ((site, n) :: failures)) with (n + total_of failures); lia).
  rewrite decide_False by done. unfold report.
  destruct (Hfold ((site, n) :: failures) 0 w) as [H1 H2].
  destruct (fold_left _ _ _) as [total w']. cbn [fst snd] in *. by rewrite H1.
Qed.

End execute_facts.

(** X1: [execute] never reports more failures than the console shows, so
    rejected requests alone never make it throw; and when every request is
    answered it reports exactly the parse failures shown: it throws the
    aggregate error with their number if there is one, and returns
    normally if there is none. *)
Theorem execute_on_aggregate (net : Index.Network)
    (parse : string → Index.completion string) (elapsed : string → nat → Q)
    (sites : list (string * string)) (retry : option nat) (grclimit : option string)
    (g : Index.Globals) (w : Index.World) :
  NoDup sites.*1 →
  let res := Index.execute_on net parse elapsed sites retry grclimit g w in
  let shown :=
    Index.parse_failures (Index.console res.2) - Index.parse_failures (Index.console w) in
  (∃ n, n ≤ shown
        ∧ res.1.1 = if decide (n = 0) then Index.Normal ()
                    else Index.Throw (Index.aggregate_error n))
  ∧ ((∀ k request, is_Some (net k request)) →
     res.1.1 = if decide (shown = 0) then Index.Normal ()
               else Index.Throw (Index.aggregate_error shown)).
Proof.
  intros Hnd. unfold Index.execute_on.
  destruct (sites_counts net parse elapsed (default 10 retry) grclimit sites [] g w Hnd)
    as (H1 & H2 & H3); [by intros ? _ ?%elem_of_nil|done|].
  destruct (fold_left _ _ _) as [[failures g'] w']. cbn [fst snd] in *.
  destruct (report_spec failures w' H3) as [Hr Hc].
  destruct (Index.report failures w') as [r w'']. cbn [fst snd] in *.
  rewrite Hc. subst r. change (Index.total_of []) with 0 in *. split.
  - exists (Index.total_of failures). split; [lia|done].
  - intros Hnet. specialize (H2 Hnet).
    by replace (Index.parse_failures (Index.console w')
                - Index.parse_failures (Index.console w))
      with (Index.total_of failures) by lia.
Qed.

Lemma execute_on_aggregate_witness :
  let page := Index.mkPage 1 "A" 0 (Some [Index.mkRevision "{{" "wikitext"]) in
  let net : Index.Network := λ _ _, Some (Index.mkResponse [page] None) in
  let parse : string → Index.completion string := λ _,
    Index.Throw (Index.Error "unexpected end of input" None) in
  let res :=
    Index.execute_on net parse (λ _ _, 1%Q) [("Wikipedia", "https://en.wikipedia.org/w")]
      (Some 2) None (Index.mkGlobals None (Index.load [])) (Index.mkWorld [] []) in
  let shown := Index.parse_failures (Index.console res.2) - 0 in
  (∃ n, n ≤ shown
        ∧ res.1.1 = if decide (n = 0) then Index.Normal ()
                    else Index.Throw (Index.aggregate_error n))
  ∧ ((∀ k request, is_Some (net k request)) →
     res.1.1 = if decide (shown = 0) then Index.Normal ()
               else Index.Throw (Index.aggregate_error shown)).
Proof.
  apply (execute_on_aggregate
           (λ _ _, Some (Index.mkResponse
                           [Index.mkPage 1 "A" 0 (Some [Index.mkRevision "{{" "wikitext"])]
                           None))
           (λ _, Index.Throw (Index.Error "unexpected end of input" None))
           (λ _ _, 1%Q) [("Wikipedia", "https://en.wikipedia.org/w")]
           (Some 2) None (Index.mkGlobals None (Index.load [])) (Index.mkWorld [] [])).
  apply (bool_decide_unpack _). vm_compute. exact I.
Defined.

(** * Properties of the reconciler *)

Section reconciler_facts.
Import Index.

Variable results : list Test.
Variable parse : string → completion string.

Lemma alter_middle (upd : Test → Test) (l1 l2 : list Test) (x : Test) :
  alter upd (length l1) (l1 ++ x :: l2) = l1 ++ upd x :: l2.
Proof. rewrite <- (Nat.add_0_r (length l1)) at 1. by rewrite alter_app_r. Qed.

(** One callback, run while its object and its array slot are where the
    registration found them. *)
Lemma it_body_in_place (cl : Closure) (c0 : option (gmap string string))
    (pre os : list Test) (t : Test) (ids rest : list nat) (x : nat) (ch : ascii)
    (w : string) :
  cl_test cl = length pre → cl_i cl = length ids →
  cl_wikitext cl = String ch w → wikitext t = Some (String ch w) →
  it_body results parse cl (mkGlobals c0 (mkCorpus (pre ++ t :: os) (ids ++ x :: rest)))
  = (outcome_of results parse cl,
     mkGlobals c0
       (mkCorpus (pre ++ evaluated parse t :: os)
          (ids ++ (if retained parse t then [x] else []) ++ rest))).
Proof.
  intros Htest Hi Hw Ht.
  unfold it_body, with_test, outcome_of, evaluated, retained. simpl.
  rewrite Htest, Hw, Ht, alter_middle.
  destruct (parse (String ch w)) as [s|e].
  - simpl. rewrite alter_middle, list_lookup_middle by done. simpl.
    case_bool_decide; [done|].
    unfold rethrow. simpl. by rewrite Hw.
  - unfold rethrow, splice. simpl. rewrite Hw, Hi.
    assert ((if instanceof_Error e then annotate (String ch w) e else e)
            = annotate (String ch w) e) as -> by (by destruct e).
    destruct (instanceof_AssertionError e); [done|]. simpl.
    by rewrite delete_middle.
Qed.

(** The callbacks for the indices below [k], run in their order of
    registration from a state whose first [k] objects and slots are still
    those of the loaded corpus. *)
Lemma run_tests_register (l : list Test) (c0 : option (gmap string string)) (k : nat) :
  ∀ os rest, k ≤ length l →
    run_tests results parse (register (load l) k)
      (mkGlobals c0 (mkCorpus (take k l ++ os) (seq 0 k ++ rest)))
    = ((λ cl, (cl, outcome_of results parse cl)) <$> register (load l) k,
       mkGlobals c0
         (mkCorpus ((evaluated parse <$> take k l) ++ os)
            (filter (λ i, retained_at parse l i) (seq 0 k) ++ rest))).
Proof.
  induction k as [|i IH]; intros os rest Hk; [done|].
  destruct (lookup_lt_is_Some_2 l i) as [t Ht]; [lia|].
  rewrite (take_S_r _ _ _ Ht), seq_S, fmap_app, filter_app. simpl.
  rewrite <- !(assoc_L (++)). simpl.
  assert (seq 0 (length l) !! i = Some i) as Hid by (by rewrite lookup_seq_lt by lia).
  rewrite Hid. simpl. rewrite Ht.
  assert (retained_at parse l i = retained parse t) as Hret
    by (unfold retained_at; by rewrite Ht).
  destruct (wikitext t) as [[|ch w]|] eqn:Hw.
  - rewrite IH by lia. f_equal. f_equal. f_equal.
    + unfold evaluated. by rewrite Hw.
    + rewrite filter_cons_True, filter_nil; [done|].
      rewrite Hret. unfold retained. by rewrite Hw.
  - simpl.
    rewrite (it_body_in_place _ c0 (take i l) os t (seq 0 i) rest i ch w);
      [|simpl; by rewrite ?length_take_le, ?length_seq by lia..].
    rewrite IH by lia. f_equal. f_equal. f_equal. f_equal.
    rewrite filter_cons, filter_nil, Hret.
    by destruct (retained parse t).
  - rewrite IH by lia. f_equal. f_equal. f_equal.
    + unfold evaluated. by rewrite Hw.
    + rewrite filter_cons_True, filter_nil; [done|].
      rewrite Hret. unfold retained. by rewrite Hw.
Qed.

Lemma contents_filter (upd : Test → Test) (keep : Test → bool) (l : list Test) :
  ∀ pre,
    omap (λ id, (upd <$> (pre ++ l)) !! id)
      (filter (λ i, from_option keep true ((pre ++ l) !! i)) (seq (length pre) (length l)))
    = upd <$> filter (λ t, keep t) l.
Proof.
  induction l as [|x l IH]; intros pre; [done|].
  specialize (IH (pre ++ [x])).
  rewrite <- (assoc_L (++)), length_app, Nat.add_1_r in IH. simpl in IH.
  simpl. rewrite !filter_cons, list_lookup_middle by done. simpl.
  destruct (decide (keep x)) as [Hx|Hx].
  - rewrite fmap_cons. cbn [omap list_omap].
    rewrite list_lookup_fmap, list_lookup_middle by done. simpl.
    f_equal. exact IH.
  - exact IH.
Qed.

(** A run of the suite over a freshly loaded corpus, in closed form. *)
Lemma reconcile_closed (corpus : list Test) :
  reconcile results parse corpus
  = mkReport
      (mkGlobals None
         (mkCorpus (evaluated parse <$> corpus)
            (filter (λ i, retained_at parse corpus i) (seq 0 (length corpus)))))
      ((λ cl, (cl, outcome_of results parse cl))
         <$> register (load corpus) (length corpus))
      (evaluated parse <$> filter (λ t, retained parse t) corpus).
Proof.
  unfold reconcile, mochaTest.
  change (tests (mkGlobals None (load corpus))) with (load corpus).
  change (arr (load corpus)) with (seq 0 (length corpus)). rewrite length_seq.
  change (mkGlobals None (load corpus))
    with (mkGlobals None (mkCorpus corpus (seq 0 (length corpus)))).
  pose proof (run_tests_register corpus None (length corpus) [] [] (reflexivity _)) as H.
  rewrite firstn_all, !(right_id_L [] (++)) in H. rewrite H. f_equal.
  unfold contents. simpl. apply (contents_filter _ _ corpus []).
Qed.

Lemma elem_of_register (l : list Test) (k : nat) (cl : Closure) :
  k ≤ length l →
  cl ∈ register (load l) k
  ↔ ∃ i t ch w, i < k ∧ l !! i = Some t ∧ wikitext t = Some (String ch w)
      ∧ cl = mkClosure i i (String ch w) (desc t).
Proof.
  induction k as [|i IH]; intros Hk.
  - simpl. split; [by intros ?%elem_of_nil|]. intros (? & ? & ? & ? & ? & _). lia.
  - destruct (lookup_lt_is_Some_2 l i) as [t Ht]; [lia|].
    assert (cl ∈ register (load l) i
            ∨ (∃ ch w, wikitext t = Some (String ch w)
                 ∧ cl = mkClosure i i (String ch w) (desc t))
            ↔ ∃ i' t' ch w, i' < S i ∧ l !! i' = Some t'
                ∧ wikitext t' = Some (String ch w)
                ∧ cl = mkClosure i' i' (String ch w) (desc t')) as Hstep.
    { rewrite IH by lia. split.
      - intros [(i' & t' & ch & w & ? & ? & ? & ?)|(ch & w & ? & ?)].
        + exists i', t', ch, w. repeat split; [lia|done..].
        + exists i, t, ch, w. repeat split; [lia|done..].
      - intros (i' & t' & ch & w & Hi' & Hl & ? & ?).
        destruct (decide (i' = i)) as [->|].
        + right. rewrite Ht in Hl. injection Hl as <-. eauto.
        + left. exists i', t', ch, w. repeat split; [lia|done..]. }
    rewrite <- Hstep. simpl. rewrite lookup_seq_lt by lia. simpl. rewrite Ht.
    destruct (wikitext t) as [[|ch w]|] eqn:Hw.
    + split; [by left|]. intros [?|(? & ? & ? & _)]; done.
    + rewrite elem_of_cons. split.
      * intros [->|?]; [right; eauto|by left].
      * intros [?|(? & ? & [= <- <-] & ->)]; [by right|by left].
    + split; [by left|]. intros [?|(? & ? & ? & _)]; done.
Qed.

Lemma evaluated_desc (t : Test) : desc (evaluated parse t) = desc t.
Proof.
  unfold evaluated. destruct (wikitext t) as [[|ch w]|]; try done.
  by destruct (parse _).
Qed.

Lemma evaluated_wikitext (t : Test) : wikitext (evaluated parse t) = wikitext t.
Proof.
  unfold evaluated. destruct (wikitext t) as [[|ch w]|] eqn:Hw; try done.
  by destruct (parse _).
Qed.

(** What a run leaves in an entry that was executed and kept. *)
Lemma evaluated_retained (t : Test) (ch : ascii) (w : string) :
  wikitext t = Some (String ch w) → retained parse t = true →
  match parse (String ch w) with
  | Normal s => parsed (evaluated parse t) = Some s
  | Throw e => instanceof_AssertionError e = true
  end.
Proof.
  unfold retained, evaluated. intros ->. by destruct (parse _).
Qed.

Lemma find_unique (l : list Test) (t : Test) :
  NoDup (desc <$> l) → t ∈ l →
  List.find (λ r, bool_decide (desc r = desc t)) l = Some t.
Proof.
  induction l as [|x l IH]; intros Hnd Hin; [by apply elem_of_nil in Hin|].
  rewrite fmap_cons in Hnd. apply NoDup_cons in Hnd as [Hx Hnd]. simpl.
  case_bool_decide as Hd.
  - apply elem_of_cons in Hin as [->|Hin]; [done|].
    destruct Hx. rewrite Hd. apply list_elem_of_fmap. eauto.
  - apply elem_of_cons in Hin as [->|Hin]; [done|]. by apply IH.
Qed.

Lemma register_insert_skipped (l : list Test) (i k : nat) (t t0 : Test) :
  l !! i = Some t → Js.truthy (wikitext t) = false → Js.truthy (wikitext t0) = false →
  register (load (<[i:=t0]> l)) k = register (load l) k.
Proof.
  intros Ht Hw Hw0. induction k as [|j IH]; [done|]. simpl.
  rewrite length_insert. destruct (seq 0 (length l) !! j) as [id|] eqn:Hid; [|done].
  apply lookup_seq in Hid as [-> Hj]. simpl.
  destruct (decide (i = j)) as [->|Hne].
  - rewrite list_lookup_insert_eq, Ht by done.
    destruct (wikitext t) as [[|? ?]|], (wikitext t0) as [[|? ?]|]; done.
  - rewrite list_lookup_insert_ne by done. by rewrite IH.
Qed.

End reconciler_facts.

(** C2: take an entry of the corpus with a non-empty [wikitext], so that
    its test is run.  If the parser throws a value that is no
    [AssertionError], the entry is gone from the [tests] array afterwards,
    hence from the corpus written to the file (which is empty when the
    entry was the only one), and the test throws the same value, whose
    [cause.message] is now the wikitext when the value is an [Error].  If
    the parser returns and the comparison fails, the entry stays in the
    array and in the written corpus, with [parsed] already set to the fresh
    output, and the test throws the [AssertionError] of the comparison. *)
Theorem reconcile_failing_case (results : list Index.Test)
    (parse : string → Index.completion string) (corpus : list Index.Test)
    (i : nat) (t : Index.Test) (ch : ascii) (w0 : string) :
  corpus !! i = Some t → Index.wikitext t = Some (String ch w0) →
  let w := String ch w0 in
  let R := Index.reconcile results parse corpus in
  let cl := Index.mkClosure i i w (Index.desc t) in
  Index.written R = Index.contents (Index.tests (Index.globals R))
  ∧ (∀ e, parse w = Index.Throw e → Index.instanceof_AssertionError e = false →
       (i ∉ Index.arr (Index.tests (Index.globals R)))
       ∧ (corpus = [t] → Index.written R = [])
       ∧ (cl, Index.Throw (Index.annotate w e)) ∈ Index.outcomes R
       ∧ (Index.instanceof_Error e = true →
          Index.cause_message (Index.annotate w e) = Some (Js.nl +:+ w)))
  ∧ (∀ s, parse w = Index.Normal s →
       Some (Index.js_split s) ≠ Index.split (Index.find_result results (Index.desc t)) →
       i ∈ Index.arr (Index.tests (Index.globals R))
       ∧ (∃ t', Index.objs (Index.tests (Index.globals R)) !! i = Some t'
            ∧ Index.parsed t' = Some s ∧ Index.desc t' = Index.desc t
            ∧ t' ∈ Index.written R)
       ∧ (cl, Index.Throw
                (Index.AssertionError (Some (Index.js_split s))
                   (Index.split (Index.find_result results (Index.desc t)))
                   (Some (Js.nl +:+ w))))
         ∈ Index.outcomes R).
Proof.
  intros Ht Hw w R cl. unfold R. rewrite reconcile_closed.
  cbn [Index.globals Index.tests Index.arr Index.objs Index.written Index.outcomes].
  assert (i < length corpus) as Hi by (by apply lookup_lt_is_Some; eauto).
  assert (cl ∈ Index.register (Index.load corpus) (length corpus)) as Hcl.
  { apply elem_of_register; [done|]. exists i, t, ch, w0. done. }
  split; [|split].
  - unfold Index.contents.
    cbn [Index.globals Index.tests Index.arr Index.objs]. symmetry. apply (contents_filter _ _ corpus []).
  - intros e He Hna.
    assert (Index.retained parse t = false) as Hret.
    { unfold Index.retained. rewrite Hw. fold w. by rewrite He. }
    split; [|split; [|split]].
    + intros [Hr _]%list_elem_of_filter. unfold Index.retained_at in Hr.
      rewrite Ht in Hr. simpl in Hr. by rewrite Hret in Hr.
    + intros ->. rewrite filter_cons_False, filter_nil; [done|].
      rewrite Hret. by intros ?.
    + apply list_elem_of_fmap. exists cl. split; [|done].
      unfold Index.outcome_of. simpl. fold w. by rewrite He.
    + by destruct e.
  - intros s Hs Hne.
    assert (Index.retained parse t = true) as Hret.
    { unfold Index.retained. rewrite Hw. fold w. by rewrite Hs. }
    assert (Index.evaluated parse t = Index.set_parsed s (Index.scrub t)) as Hev.
    { unfold Index.evaluated. rewrite Hw. fold w. by rewrite Hs. }
    split; [|split].
    + apply list_elem_of_filter. split.
      * unfold Index.retained_at. rewrite Ht. simpl. by rewrite Hret.
      * apply elem_of_seq. lia.
    + exists (Index.evaluated parse t).
      split; [by rewrite list_lookup_fmap, Ht|].
      split; [by rewrite Hev|]. split; [by rewrite Hev|].
      apply list_elem_of_fmap. exists t. split; [done|].
      apply list_elem_of_filter. split; [by rewrite Hret|].
      by apply list_elem_of_lookup_2 in Ht.
    + apply list_elem_of_fmap. exists cl. split; [|done].
      unfold Index.outcome_of. simpl. fold w. rewrite Hs.
      by rewrite bool_decide_false.
Qed.

Lemma reconcile_failing_case_witness :
  let crash := Index.Error "Maximum call stack size exceeded" None in
  let parse : string → Index.completion string := λ w,
    if bool_decide (w = "{{loop}}") then Index.Throw crash else Index.Normal ("<p>" +:+ w +:+ "</>") in
  let t := Index.mkTest "Template loop" None (Some "{{loop}}") None None None None in
  let corpus := [Index.mkTest "Plain text" None (Some "text") None None None None; t] in
  let R := Index.reconcile [] parse corpus in
  let cl := Index.mkClosure 1 1 "{{loop}}" "Template loop" in
  Index.written R = Index.contents (Index.tests (Index.globals R))
  ∧ (∀ e, parse "{{loop}}" = Index.Throw e → Index.instanceof_AssertionError e = false →
       (1 ∉ Index.arr (Index.tests (Index.globals R)))
       ∧ (corpus = [t] → Index.written R = [])
       ∧ (cl, Index.Throw (Index.annotate "{{loop}}" e)) ∈ Index.outcomes R
       ∧ (Index.instanceof_Error e = true →
          Index.cause_message (Index.annotate "{{loop}}" e) = Some (Js.nl +:+ "{{loop}}")))
  ∧ (∀ s, parse "{{loop}}" = Index.Normal s →
       Some (Index.js_split s) ≠ Index.split (Index.find_result [] "Template loop") →
       1 ∈ Index.arr (Index.tests (Index.globals R))
       ∧ (∃ t', Index.objs (Index.tests (Index.globals R)) !! 1 = Some t'
            ∧ Index.parsed t' = Some s ∧ Index.desc t' = "Template loop"
            ∧ t' ∈ Index.written R)
       ∧ (cl, Index.Throw
                (Index.AssertionError (Some (Index.js_split s))
                   (Index.split (Index.find_result [] "Template loop"))
                   (Some (Js.nl +:+ "{{loop}}"))))
         ∈ Index.outcomes R).
Proof.
  exact (reconcile_failing_case []
           (λ w, if bool_decide (w = "{{loop}}")
                 then Index.Throw (Index.Error "Maximum call stack size exceeded" None)
                 else Index.Normal ("<p>" +:+ w +:+ "</>"))
           [Index.mkTest "Plain text" None (Some "text") None None None None;
            Index.mkTest "Template loop" None (Some "{{loop}}") None None None None]
           1 (Index.mkTest "Template loop" None (Some "{{loop}}") None None None None)
           "{"%char "{loop}}" eq_refl eq_refl).
Defined.

(** C10: an entry whose [wikitext] is the empty string gets no test, keeps
    every field, and stays in the array and in the written corpus; the run
    is the run of the corpus in which that entry has no [wikitext] at all:
    the same tests with the same outcomes, the same array, and the same
    objects but for this entry's [wikitext]. *)
Theorem reconcile_empty_wikitext (results : list Index.Test)
    (parse : string → Index.completion string) (corpus : list Index.Test)
    (i : nat) (t : Index.Test) :
  corpus !! i = Some t → Index.wikitext t = Some "" →
  let R := Index.reconcile results parse corpus in
  let t0 :=
    Index.mkTest (Index.desc t) (Index.t_title t) None (Index.parsed t)
      (Index.html t) (Index.print t) (Index.render t) in
  let R0 := Index.reconcile results parse (<[i:=t0]> corpus) in
  (∀ cl r, (cl, r) ∈ Index.outcomes R → Index.cl_i cl ≠ i ∧ Index.cl_test cl ≠ i)
  ∧ Index.objs (Index.tests (Index.globals R)) !! i = Some t
  ∧ i ∈ Index.arr (Index.tests (Index.globals R))
  ∧ t ∈ Index.written R
  ∧ Index.outcomes R0 = Index.outcomes R
  ∧ Index.arr (Index.tests (Index.globals R0)) = Index.arr (Index.tests (Index.globals R))
  ∧ Index.objs (Index.tests (Index.globals R0))
    = <[i:=t0]> (Index.objs (Index.tests (Index.globals R))).
Proof.
  intros Ht Hw R t0 R0. unfold R, R0. rewrite !reconcile_closed.
  cbn [Index.globals Index.tests Index.arr Index.objs Index.written Index.outcomes].
  assert (i < length corpus) as Hi by (by apply lookup_lt_is_Some; eauto).
  assert (Index.evaluated parse t = t) as Hev by (unfold Index.evaluated; by rewrite Hw).
  assert (Index.retained parse t = true) as Hret by (unfold Index.retained; by rewrite Hw).
  split; [|split; [|split; [|split; [|split; [|split]]]]].
  - intros cl r (cl' & [= <- _] & Hcl)%list_elem_of_fmap.
    apply elem_of_register in Hcl as (j & t' & ch & w & _ & Hj & Hw' & ->); [|done].
    simpl. assert (j ≠ i); [|done]. intros ->. congruence.
  - rewrite list_lookup_fmap, Ht. simpl. by rewrite Hev.
  - apply list_elem_of_filter. split; [|apply elem_of_seq; lia].
    unfold Index.retained_at. rewrite Ht. simpl. by rewrite Hret.
  - rewrite <- Hev at 1. apply list_elem_of_fmap. exists t. split; [done|].
    apply list_elem_of_filter. split; [by rewrite Hret|].
    by apply list_elem_of_lookup_2 in Ht.
  - rewrite length_insert. f_equal.
    apply (register_insert_skipped _ _ _ t); [done|by rewrite Hw|done].
  - rewrite length_insert. apply list_filter_iff. intros j.
    unfold Index.retained_at. destruct (decide (i = j)) as [<-|Hne].
    + rewrite list_lookup_insert_eq, Ht by done. simpl. by rewrite Hret.
    + by rewrite list_lookup_insert_ne.
  - by rewrite list_fmap_insert.
Qed.

Lemma reconcile_empty_wikitext_witness :
  let parse : string → Index.completion string := λ w, Index.Normal ("<p>" +:+ w +:+ "</>") in
  let t := Index.mkTest "Disabled" (Some "Old") (Some "") (Some "<p></>") (Some "<p></p>") None None in
  let corpus := [t; Index.mkTest "Plain text" None (Some "text") None None None None] in
  let R := Index.reconcile [] parse corpus in
  let t0 := Index.mkTest "Disabled" (Some "Old") None (Some "<p></>") (Some "<p></p>") None None in
  let R0 := Index.reconcile [] parse (<[0:=t0]> corpus) in
  (∀ cl r, (cl, r) ∈ Index.outcomes R → Index.cl_i cl ≠ 0 ∧ Index.cl_test cl ≠ 0)
  ∧ Index.objs (Index.tests (Index.globals R)) !! 0 = Some t
  ∧ 0 ∈ Index.arr (Index.tests (Index.globals R))
  ∧ t ∈ Index.written R
  ∧ Index.outcomes R0 = Index.outcomes R
  ∧ Index.arr (Index.tests (Index.globals R0)) = Index.arr (Index.tests (Index.globals R))
  ∧ Index.objs (Index.tests (Index.globals R0))
    = <[0:=t0]> (Index.objs (Index.tests (Index.globals R))).
Proof.
  exact (reconcile_empty_wikitext []
           (λ w, Index.Normal ("<p>" +:+ w +:+ "</>"))
           [Index.mkTest "Disabled" (Some "Old") (Some "") (Some "<p></>") (Some "<p></p>")
              None None;
            Index.mkTest "Plain text" None (Some "text") None None None None]
           0
           (Index.mkTest "Disabled" (Some "Old") (Some "") (Some "<p></>") (Some "<p></p>")
              None None)
           eq_refl eq_refl).
Defined.

(** C3, as the code has it: let the descriptions of the corpus be pairwise
    distinct, let a first run write its corpus, and let a second run with
    the same parser load that corpus and take it as its results.  Then in
    the second run every test whose parse returns passes, its tokens being
    those of the stored expectation; a test can only fail there because
    the parser itself throws an [AssertionError] on its wikitext. *)
Theorem reconcile_twice (results : list Index.Test)
    (parse : string → Index.completion string) (corpus : list Index.Test)
    (cl : Index.Closure) (r : Index.completion unit) :
  NoDup (Index.desc <$> corpus) →
  let R1 := Index.reconcile results parse corpus in
  let R2 := Index.reconcile (Index.written R1) parse (Index.written R1) in
  (cl, r) ∈ Index.outcomes R2 →
  match parse (Index.cl_wikitext cl) with
  | Index.Normal s =>
      r = Index.Normal ()
      ∧ Some (Index.js_split s)
        = Index.split (Index.find_result (Index.written R1) (Index.cl_desc cl))
  | Index.Throw e =>
      Index.instanceof_AssertionError e = true
      ∧ r = Index.Throw (Index.annotate (Index.cl_wikitext cl) e)
  end.
Proof.
  intros Hnd R1 R2. unfold R2, R1. clear R1 R2.
  rewrite (reconcile_closed results parse corpus).
  cbn [Index.written].
  set (W := Index.evaluated parse <$> filter (λ t, Index.retained parse t) corpus).
  rewrite (reconcile_closed W parse W). cbn [Index.outcomes].
  intros (cl' & [= <- ->] & Hcl)%list_elem_of_fmap.
  apply elem_of_register in Hcl as (i & t' & ch & w & _ & Hi & Hw & ->); [|done].
  apply list_elem_of_lookup_2 in Hi.
  assert (NoDup (Index.desc <$> W)) as HndW.
  { unfold W. rewrite <- list_fmap_compose.
    rewrite (list_fmap_ext _ Index.desc)
      by (intros ? ? ?; apply evaluated_desc).
    eapply sublist_NoDup; [exact Hnd|]. apply fmap_sublist, sublist_filter. }
  assert (match parse (String ch w) with
          | Index.Normal s => Index.parsed t' = Some s
          | Index.Throw e => Index.instanceof_AssertionError e = true
          end) as Hkept.
  { unfold W in Hi. apply list_elem_of_fmap in Hi as (t & -> & Ht).
    apply list_elem_of_filter in Ht as [Hret _].
    rewrite evaluated_wikitext in Hw.
    apply evaluated_retained; [done|]. by apply Is_true_true. }
  unfold Index.outcome_of. cbn [Index.cl_wikitext Index.cl_desc].
  destruct (parse (String ch w)) as [s|e]; [|done].
  assert (Index.split (Index.find_result W (Index.desc t')) = Some (Index.js_split s))
    as ->.
  { unfold Index.find_result. rewrite find_unique by done.
    unfold Index.split. by rewrite Hkept. }
  by rewrite bool_decide_true.
Qed.

Lemma reconcile_twice_witness :
  let parse : string → Index.completion string := λ w, Index.Normal ("<p>" +:+ w +:+ "</>") in
  let corpus :=
    [Index.mkTest "Plain text" None (Some "text") (Some "stale") None None None;
     Index.mkTest "Bold" None (Some "'''b'''") None None None None] in
  let R1 := Index.reconcile [] parse corpus in
  Index.Normal () = Index.Normal ()
  ∧ Some (Index.js_split "<p>text</>")
    = Index.split (Index.find_result (Index.written R1) "Plain text").
Proof.
  apply (reconcile_twice []
           (λ w, Index.Normal ("<p>" +:+ w +:+ "</>"))
           [Index.mkTest "Plain text" None (Some "text") (Some "stale") None None None;
            Index.mkTest "Bold" None (Some "'''b'''") None None None None]
           (Index.mkClosure 0 0 "text" "Plain text") (Index.Normal ())).
  - apply (bool_decide_unpack _). vm_compute. exact I.
  - vm_compute. repeat constructor.
Defined.

(** C3 as stated fails: with two entries of one description the second
    run compares the later entry with the first one's output. *)
Lemma reconcile_twice_same_description :
  let parse : string → Index.completion string := λ w, Index.Normal w in
  let corpus :=
    [Index.mkTest "Link" None (Some "[[a]]") None None None None;
     Index.mkTest "Link" None (Some "[[b]]") None None None None] in
  let R1 := Index.reconcile [] parse corpus in
  let R2 := Index.reconcile (Index.written R1) parse (Index.written R1) in
  Index.written R1
  = [Index.mkTest "Link" None (Some "[[a]]") (Some "[[a]]") None None None;
     Index.mkTest "Link" None (Some "[[b]]") (Some "[[b]]") None None None]
  ∧ Index.outcomes R2
    = [(Index.mkClosure 1 1 "[[b]]" "Link",
        Index.Throw
          (Index.AssertionError (Some ["[[b]]"]) (Some ["[[a]]"])
             (Some (Js.nl +:+ "[[b]]"))));
       (Index.mkClosure 0 0 "[[a]]" "Link", Index.Normal ())].
Proof. split; reflexivity. Qed.

(** X2: the corpus a run writes, in one formula: the loaded corpus, in its
    order, without the entries whose parse threw a value that is no
    [AssertionError]; an entry that was run keeps [desc] and [wikitext],
    has no [title], [html], [print] and [render] any more, and has the
    parser's output as [parsed] when the parser returned and its old
    [parsed] when it threw; an entry without a non-empty [wikitext] is as
    it was. *)
Theorem written_corpus (results : list Index.Test)
    (parse : string → Index.completion string) (corpus : list Index.Test) :
  Index.written (Index.reconcile results parse corpus)
  = (λ t,
       match Index.wikitext t with
       | Some (String ch w) =>
           Index.mkTest (Index.desc t) None (Index.wikitext t)
             (match parse (String ch w) with
              | Index.Normal s => Some s
              | Index.Throw _ => Index.parsed t
              end)
             None None None
       | _ => t
       end)
    <$> filter
          (λ t,
             Is_true
               match Index.wikitext t with
               | Some (String ch w) =>
                   match parse (String ch w) with
                   | Index.Normal _ => true
                   | Index.Throw e => Index.instanceof_AssertionError e
                   end
               | _ => true
               end)
          corpus.
Proof.
  rewrite reconcile_closed. cbn [Index.written].
  apply list_fmap_ext. intros _ t _.
  unfold Index.evaluated, Index.set_parsed, Index.scrub.
  destruct (Index.wikitext t) as [[|ch w]|]; try done.
  by destruct (parse (String ch w)).
Qed.

(** X3: an entry with no [wikitext] field gets no test, keeps every field,
    and stays in the array and in the written corpus. *)
Theorem reconcile_no_wikitext (results : list Index.Test)
    (parse : string → Index.completion string) (corpus : list Index.Test)
    (i : nat) (t : Index.Test) :
  corpus !! i = Some t → Index.wikitext t = None →
  let R := Index.reconcile results parse corpus in
  (∀ cl r, (cl, r) ∈ Index.outcomes R → Index.cl_i cl ≠ i ∧ Index.cl_test cl ≠ i)
  ∧ Index.objs (Index.tests (Index.globals R)) !! i = Some t
  ∧ i ∈ Index.arr (Index.tests (Index.globals R))
  ∧ t ∈ Index.written R.
Proof.
  intros Ht Hw R. unfold R. rewrite !reconcile_closed.
  cbn [Index.globals Index.tests Index.arr Index.objs Index.written Index.outcomes].
  assert (i < length corpus) as Hi by (by apply lookup_lt_is_Some; eauto).
  assert (Index.evaluated parse t = t) as Hev by (unfold Index.evaluated; by rewrite Hw).
  assert (Index.retained parse t = true) as Hret by (unfold Index.retained; by rewrite Hw).
  split; [|split; [|split]].
  - intros cl r (cl' & [= <- _] & Hcl)%list_elem_of_fmap.
    apply elem_of_register in Hcl as (j & t' & ch & w & _ & Hj & Hw' & ->); [|done].
    simpl. assert (j ≠ i); [|done]. intros ->. congruence.
  - rewrite list_lookup_fmap, Ht. simpl. by rewrite Hev.
  - apply list_elem_of_filter. split; [|apply elem_of_seq; lia].
    unfold Index.retained_at. rewrite Ht. simpl. by rewrite Hret.
  - rewrite <- Hev at 1. apply list_elem_of_fmap. exists t. split; [done|].
    apply list_elem_of_filter. split; [by rewrite Hret|].
    by apply list_elem_of_lookup_2 in Ht.
Qed.

Lemma reconcile_no_wikitext_witness :
  let parse : string → Index.completion string := λ w, Index.Normal ("<p>" +:+ w +:+ "</>") in
  let t := Index.mkTest "Section heading" (Some "Old") None None (Some "<h2>") None None in
  let corpus := [Index.mkTest "Plain text" None (Some "text") None None None None; t] in
  let R := Index.reconcile [] parse corpus in
  (∀ cl r, (cl, r) ∈ Index.outcomes R → Index.cl_i cl ≠ 1 ∧ Index.cl_test cl ≠ 1)
  ∧ Index.objs (Index.tests (Index.globals R)) !! 1 = Some t
  ∧ 1 ∈ Index.arr (Index.tests (Index.globals R))
  ∧ t ∈ Index.written R.
Proof.
  exact (reconcile_no_wikitext []
           (λ w, Index.Normal ("<p>" +:+ w +:+ "</>"))
           [Index.mkTest "Plain text" None (Some "text") None None None None;
            Index.mkTest "Section heading" (Some "Old") None None (Some "<h2>") None None]
           1
           (Index.mkTest "Section heading" (Some "Old") None None (Some "<h2>") None None)
           eq_refl eq_refl).
Defined.

(** * Further properties of the report formatter *)

Section reporter_more.
Import Reporter.

Lemma string_app_assoc (a b c : string) : (a +:+ b) +:+ c = a +:+ (b +:+ c).
Proof.
  induction a as [|ch a IH]; [done|].
  change (String ch ((a +:+ b) +:+ c) = String ch (a +:+ (b +:+ c))). by rewrite IH.
Qed.

Lemma string_app_nil_r (a : string) : a +:+ "" = a.
Proof.
  induction a as [|ch a IH]; [done|].
  change (String ch (a +:+ "") = String ch a). by rewrite IH.
Qed.

Lemma concat_empty_cons (x : string) (l : list string) :
  String.concat "" (x :: l) = x +:+ String.concat "" l.
Proof. destruct l; [by rewrite string_app_nil_r|done]. Qed.

Lemma state_after_snoc (st : State) (pre : list Event) (ev : Event) :
  state_after st (pre ++ [ev]) = (step (state_after st pre) ev).1.
Proof. unfold state_after. by rewrite fold_left_app. Qed.

Lemma fail_state_after (st : State) (source : list Event) :
  fail (state_after st source) = fail st + length (List.filter nested_fail source).
Proof.
  revert st. induction source as [|ev source IH]; intros st; simpl; [lia|].
  unfold state_after in *. simpl. rewrite IH.
  destruct ev as [? [|?] ? ?|? [|?]|? [|?] ?|? ? ? ? file|?]; simpl; try lia.
  destruct (Js.truthy file); simpl; lia.
Qed.

Lemma cur_state_after (st : State) (source : list Event) :
  cur (state_after st source) = top_name (cur st) source.
Proof.
  revert st. induction source as [|ev source IH]; intros st; [done|].
  unfold state_after, top_name in *. simpl. rewrite IH.
  destruct ev as [? [|?] ? ?|? [|?]|? [|?] ?|? ? ? ? file|?]; simpl; try done.
  by destruct (Js.truthy file).
Qed.

Lemma step_output (st : State) (ev : Event) :
  ∃ more, output (step st ev).1 = output st +:+ more
          ∧ (nested_fail ev = false → more = "").
Proof.
  destruct ev as [? [|?] ? ?|? [|?]|? [|?] ?|? ? ? ? file|?]; simpl;
    try (exists ""; by rewrite string_app_nil_r).
  - eexists. split; [by rewrite string_app_assoc|done].
  - destruct (Js.truthy file); exists ""; by rewrite string_app_nil_r.
Qed.

Lemma concat_empty_nil_l (a : string) : "" +:+ a = a.
Proof. done. Qed.

Lemma concat_empty_app (l1 l2 : list string) :
  String.concat "" (l1 ++ l2) = String.concat "" l1 +:+ String.concat "" l2.
Proof.
  induction l1 as [|x l1 IH]; [done|].
  rewrite <- app_comm_cons, !concat_empty_cons, IH. by rewrite string_app_assoc.
Qed.

(** The fragments of a stream without an aggregate summary, put together:
    the glyphs of the [test:complete] events below the top level, after
    the blank line and indent when none of them was counted before. *)
Lemma run_glyphs (source : list Event) :
  ∀ st,
    forallb
      (λ ev, match ev with
             | TestSummary _ _ _ _ file => Js.truthy file
             | _ => true
             end) source = true →
    String.concat "" (run st source)
    = match
        omap (λ ev, match ev with
                    | TestComplete _ (S _) passed d => Some (symbol passed d)
                    | _ => None
                    end) source
      with
      | [] => ""
      | glyph :: glyphs =>
          (if Nat.eqb (pass st) 0 then Js.nl +:+ Js.nl +:+ "  " else "")
          +:+ String.concat "" (glyph :: glyphs)
      end.
Proof.
  induction source as [|ev source IH]; intros st Hq; [done|].
  cbn [forallb] in Hq. apply andb_true_iff in Hq as [Hev Hq].
  cbn [run omap list_omap].
  destruct ev as [name [|n] passed d|name nesting|name nesting stack|p f0 s d file|type].
  - cbn [step fst snd app]. rewrite concat_empty_cons, concat_empty_nil_l. by apply IH.
  - cbn [step fst snd app]. rewrite !concat_empty_cons, (IH _ Hq). cbn [pass Nat.eqb].
    rewrite !string_app_assoc. do 2 f_equal.
    destruct (omap _ source) as [|glyph glyphs]; [done|].
    by rewrite concat_empty_nil_l.
  - rewrite concat_empty_app, (IH _ Hq). by destruct nesting.
  - rewrite concat_empty_app, (IH _ Hq). by destruct nesting.
  - cbn [step]. rewrite Hev. cbn [negb fst snd app]. by apply IH.
  - cbn [step fst snd app]. by apply IH.
Qed.

End reporter_more.

(** X4: a [test:fail] event below the top level yields the empty fragment
    and appends one block to the failure details: the number of the
    failure (one more than the [test:fail] events below the top level
    before it), the name of the latest [test:start] event at nesting 0 (the
    empty string when there was none), then, indented by the number's digit
    count plus four, the name of the failed test (two columns deeper) and
    the cause's stack. *)
Theorem fail_listed (pre : list Reporter.Event) (name : string) (n : nat)
    (stack : option string) :
  let k := S (length (List.filter Reporter.nested_fail pre)) in
  let indent := Js.repeat_space (String.length (pretty k) + 4) in
  Reporter.reporter (pre ++ [Reporter.TestFail name (S n) stack])
  = Reporter.reporter pre ++ [""]
  ∧ Reporter.output
      (Reporter.state_after Reporter.init (pre ++ [Reporter.TestFail name (S n) stack]))
    = (Reporter.output (Reporter.state_after Reporter.init pre)
       +:+ "  " +:+ pretty k +:+ ") " +:+ Reporter.top_name "" pre +:+ Js.nl)
      +:+ indent +:+ "  " +:+ name +:+ Js.nl
      +:+ indent +:+ Reporter.template_opt stack +:+ Js.nl +:+ Js.nl.
Proof.
  split.
  - by rewrite reporter_snoc.
  - rewrite state_after_snoc. cbn [Reporter.step fst Reporter.output].
    by rewrite fail_state_after, cur_state_after.
Qed.

(** X5: the failure details only ever grow: after more events they are
    what they were, followed by more text; and an event that is no
    [test:fail] below the top level leaves them as they are, a summary
    included, so that a second aggregate summary shows them again. *)
Theorem failure_details_grow (st : Reporter.State) (pre post : list Reporter.Event) :
  (∃ more,
     Reporter.output (Reporter.state_after st (pre ++ post))
     = Reporter.output (Reporter.state_after st pre) +:+ more)
  ∧ (forallb (λ ev, negb (Reporter.nested_fail ev)) post = true →
     Reporter.output (Reporter.state_after st (pre ++ post))
     = Reporter.output (Reporter.state_after st pre)).
Proof.
  unfold Reporter.state_after at 1 3. rewrite fold_left_app.
  fold (Reporter.state_after st pre). generalize (Reporter.state_after st pre) as s.
  induction post as [|ev post IH]; intros s.
  - split; [exists ""; by rewrite string_app_nil_r|done].
  - cbn [fold_left]. destruct (IH (Reporter.step s ev).1) as [[more Hm] Hsame].
    destruct (step_output s ev) as (more0 & H0 & Hnil). split.
    + exists (more0 +:+ more). by rewrite Hm, H0, string_app_assoc.
    + cbn [forallb]. intros [Hev Hpost]%andb_true_iff.
      rewrite Hsame, H0 by done. rewrite Hnil; [by rewrite string_app_nil_r|].
      by apply negb_true_iff.
Qed.

(** X6: for any stream of events without an aggregate summary, whatever
    the names and depths, the fragments put together are the progress
    line: nothing when no test below the top level completed, else the
    blank line and indent once, then one glyph per [test:complete] event
    below the top level, in order: the red [!] for a failed test, and for
    a passed one the bright yellow dot above 75 ms, the yellow dot above
    37.5 ms and up to 75 ms, and the grey dot up to 37.5 ms. *)
Theorem progress_line (source : list Reporter.Event) :
  forallb
    (λ ev, match ev with
           | Reporter.TestSummary _ _ _ _ file => Js.truthy file
           | _ => true
           end) source = true →
  String.concat "" (Reporter.reporter source)
  = match
      omap (λ ev, match ev with
                  | Reporter.TestComplete _ (S _) passed d => Some (Reporter.symbol passed d)
                  | _ => None
                  end) source
    with
    | [] => ""
    | glyph :: glyphs => Js.nl +:+ Js.nl +:+ "  " +:+ String.concat "" (glyph :: glyphs)
    end
  ∧ ∀ d : Q,
      Reporter.symbol false d = Js.esc +:+ "[31m!" +:+ Js.esc +:+ "[0m"
      ∧ Reporter.symbol true d
        = Js.esc +:+ "["
          +:+ (if Qlt_le_dec 75 d then "93"
               else if Qlt_le_dec (75 / 2) d then "33" else "90")
          +:+ "m." +:+ Js.esc +:+ "[0m".
Proof.
  intros Hq. split.
  - unfold Reporter.reporter. rewrite (run_glyphs source Reporter.init Hq).
    destruct (omap _ source) as [|glyph glyphs]; [done|].
    cbn [Reporter.pass Reporter.init Nat.eqb]. by rewrite !string_app_assoc.
  - intros d. split; [done|]. unfold Reporter.symbol, Js.gt, Reporter.ms. simpl negb.
    destruct (Qlt_le_dec 75 d) as [H1|H1].
    + destruct (Qle_bool d 75) eqn:E; [|done].
      apply Qle_bool_iff in E. by apply Qlt_not_le in H1.
    + apply Qle_bool_iff in H1. rewrite H1. simpl.
      destruct (Qlt_le_dec (75 / 2) d) as [H2|H2].
      * destruct (Qle_bool d (75 / 2)) eqn:E; [|done].
        apply Qle_bool_iff in E. by apply Qlt_not_le in H2.
      * apply Qle_bool_iff in H2. by rewrite H2.
Qed.

Lemma progress_line_witness :
  let source :=
    [Reporter.TestStart "Parser tests" 0;
     Reporter.TestStart "Plain text" 1;
     Reporter.TestComplete "Plain text" 1 true 10;
     Reporter.TestStart "Nested list" 2;
     Reporter.TestFail "Nested list" 2 (Some "AssertionError");
     Reporter.TestComplete "Nested list" 2 false 80;
     Reporter.TestSummary 1 1 0 90 (Some "test/parser.test.js");
     Reporter.TestComplete "Parser tests" 0 false 95] in
  String.concat "" (Reporter.reporter source)
  = Js.nl +:+ Js.nl +:+ "  "
    +:+ String.concat "" [Reporter.symbol true 10; Reporter.symbol false 80]
  ∧ ∀ d : Q,
      Reporter.symbol false d = Js.esc +:+ "[31m!" +:+ Js.esc +:+ "[0m"
      ∧ Reporter.symbol true d
        = Js.esc +:+ "["
          +:+ (if Qlt_le_dec 75 d then "93"
               else if Qlt_le_dec (75 / 2) d then "33" else "90")
          +:+ "m." +:+ Js.esc +:+ "[0m".
Proof.
  exact (progress_line
           [Reporter.TestStart "Parser tests" 0;
            Reporter.TestStart "Plain text" 1;
            Reporter.TestComplete "Plain text" 1 true 10;
            Reporter.TestStart "Nested list" 2;
            Reporter.TestFail "Nested list" 2 (Some "AssertionError");
            Reporter.TestComplete "Nested list" 2 false 80;
            Reporter.TestSummary 1 1 0 90 (Some "test/parser.test.js");
            Reporter.TestComplete "Parser tests" 0 false 95]
           eq_refl).
Defined.

(** * Further properties of the page fetcher *)

(** X7: two calls of [getPages] in a row send two requests; the second
    carries the [continue] value of the first response as its token, or the
    old token when the first request was rejected, whatever endpoint or
    site it is for; with [reset] between the calls it carries no token. *)
Theorem getPages_twice (net : Index.Network) (url1 url2 : string)
    (site1 lim1 site2 lim2 : option string) (g : Index.Globals)
    (sent : list Index.Request) :
  let request1 := Index.mkRequest url1 (Index.query site1 lim1 (Index.c g)) in
  let first := Index.getPages net url1 site1 lim1 g sent in
  let token :=
    match net (length sent) request1 with
    | Some response => Index.continue response
    | None => Index.c g
    end in
  (Index.getPages net url2 site2 lim2 first.1.2 first.2).2
  = sent ++ [request1; Index.mkRequest url2 (Index.query site2 lim2 token)]
  ∧ default ∅ token ⊆ Index.query site2 lim2 token
  ∧ (Index.getPages net url2 site2 lim2 (Index.reset first.1.2) first.2).2
    = sent ++ [request1; Index.mkRequest url2 (Index.query site2 lim2 None)].
Proof.
  cbn zeta. unfold Index.getPages at 2 3 5 6.
  destruct (net (length sent) _) as [response|]; cbn [fst snd Index.c Index.reset];
    unfold Index.getPages;
    repeat match goal with |- context [net ?k ?r] => destruct (net k r) end;
    cbn [fst snd]; rewrite <- !(assoc_L (++)); cbn [app];
    (split; [done|split; [apply map_union_subseteq_l|done]]).
Qed.

(** X8: [getPages] returns pages of the response only, each at most once
    and in the response's order, and never more pages than the response
    holds. *)
Theorem simple_pages_sublist (pages : list Index.MediaWikiPage) :
  (λ sp, (Index.s_pageid sp, Index.s_title sp, Index.s_ns sp)) <$> Index.simple_pages pages
    `sublist_of` (λ p, (Index.pageid p, Index.title p, Index.ns p)) <$> pages
  ∧ length (Index.simple_pages pages) ≤ length pages.
Proof.
  rewrite simple_pages_omap.
  induction pages as [|p pages [IH1 IH2]]; [split; [constructor|done]|].
  rewrite fmap_cons. cbn [omap list_omap].
  destruct (Index.first_wikitext p) as [sp|] eqn:Hp.
  - apply first_wikitext_Some in Hp as (r & rest & _ & _ & ->).
    rewrite fmap_cons. cbn [length]. split; [|lia].
    by apply sublist_skip.
  - split; [by apply sublist_cons|]. cbn [length]. lia.
Qed.

(** * Further properties of the live corpus runner *)

Section execute_more.
Import Index.

Variable net : Network.
Variable parse : string → completion string.
Variable elapsed : string → nat → Q.

Lemma started_log (line : LogLine) (w : World) :
  started (console (log line w))
  = started (console w)
    ++ match line with SiteStarted site => [site] | _ => [] end.
Proof. unfold started, log. cbn [console]. rewrite omap_app. by destruct line. Qed.

Lemma pages_seen_log (line : LogLine) (w : World) :
  pages_seen (console (log line w))
  = pages_seen (console w) + (if is_progress line then 1 else 0).
Proof.
  unfold pages_seen, log. cbn [console]. rewrite List.filter_app, length_app. simpl.
  by destruct (is_progress line).
Qed.

Lemma visit_keep (site : string) (l : Locals) (w : World) (page : SimplePage) :
  let st := visit parse elapsed site (l, w) page in
  started (console st.2) = started (console w)
  ∧ sent st.2 = sent w
  ∧ pages_seen (console st.2) = pages_seen (console w) + 1
  ∧ i st.1 = S (i l)
  ∧ ((worst l = None ↔ failed l = i l) → failed l ≤ i l →
     (worst st.1 = None ↔ failed st.1 = i st.1) ∧ failed st.1 ≤ i st.1).
Proof.
  unfold visit. cbn zeta.
  destruct (parse (s_content page)); cbn [fst snd failed i worst];
    rewrite ?started_log, ?pages_seen_log, ?(right_id_L [] (++));
    cbn [is_progress sent log console];
    (split; [done|]); (split; [done|]); (split; [lia|]); (split; [done|]);
    intros Hw Hle.
  - split; [|lia]. split; [|intros ?; lia].
    by destruct (worst l) as [[? ?]|]; [destruct (Js.gt _ _)|].
  - split; [|lia]. rewrite Hw. lia.
Qed.

(** What the loop over the pages of a response keeps: no site is started,
    no request is sent, one page is counted as seen per page, and [worst]
    is absent exactly while every page seen has failed. *)
Lemma visits_keep (site : string) (pages : list SimplePage) :
  ∀ l w,
    let st := fold_left (visit parse elapsed site) pages (l, w) in
    started (console st.2) = started (console w)
    ∧ sent st.2 = sent w
    ∧ pages_seen (console st.2) = pages_seen (console w) + length pages
    ∧ i st.1 = i l + length pages
    ∧ ((worst l = None ↔ failed l = i l) → failed l ≤ i l →
       (worst st.1 = None ↔ failed st.1 = i st.1) ∧ failed st.1 ≤ i st.1).
Proof.
  induction pages as [|page pages IH]; intros l w; cbn [fold_left].
  { cbn [fst snd length]. repeat split; try lia; tauto. }
  pose proof (visit_keep site l w page) as Hv. cbn zeta in Hv.
  destruct (visit parse elapsed site (l, w) page) as [l1 w1]. cbn [fst snd] in Hv.
  destruct Hv as (V1 & V2 & V3 & V4 & V5).
  specialize (IH l1 w1). cbn zeta in *. destruct IH as (I1 & I2 & I3 & I4 & I5).
  cbn [length]. split; [congruence|]. split; [congruence|]. split; [lia|]. split; [lia|].
  intros Hw Hle. destruct (V5 Hw Hle). by apply I5.
Qed.

Lemma rounds_keep (n : nat) (site url : string) (grclimit : option string) :
  ∀ l g w,
    let st := rounds net parse elapsed n site url grclimit l g w in
    started (console st.2) = started (console w)
    ∧ (∃ more, sent st.2 = sent w ++ more ∧ length more ≤ n
               ∧ ((∀ k request, is_Some (net k request)) → length more = n))
    ∧ tests st.1.2 = tests g
    ∧ match st.1.1 with
      | Normal l' =>
          i l' + pages_seen (console w) = i l + pages_seen (console st.2)
          ∧ ((worst l = None ↔ failed l = i l) → failed l ≤ i l →
             (worst l' = None ↔ failed l' = i l') ∧ failed l' ≤ i l')
      | Throw e => e = network_error
      end.
Proof.
  induction n as [|n IH]; intros l g w; cbn [rounds].
  { cbn [fst snd]. split; [done|]. split; [|split; [done|split; [lia|tauto]]].
    exists []. by rewrite (right_id_L [] (++)). }
  unfold getPages. destruct (net _ _) as [response|] eqn:Hnet; cbn [fst snd console sent].
  - pose proof (visits_keep site (simple_pages (query_pages response)) l
                  (mkWorld (sent w ++ [mkRequest (url +:+ "/api.php")
                                         (query (Some site) grclimit (c g))])
                     (console w))) as Hv.
    cbn zeta in Hv. destruct (fold_left _ _ _) as [l1 w1]. cbn [fst snd console sent] in Hv.
    destruct Hv as (V1 & V2 & V3 & V4 & V5).
    specialize (IH l1 (mkGlobals (continue response) (tests g)) w1). cbn zeta in IH.
    destruct IH as (I1 & (more & I2 & I3 & I4) & I5 & I6).
    split; [by rewrite I1|]. split; [|split; [done|]].
    + exists (mkRequest (url +:+ "/api.php") (query (Some site) grclimit (c g)) :: more).
      rewrite I2, V2, <- (assoc_L (++)). cbn [app length]. split; [done|].
      split; [lia|]. intros Hall. rewrite I4 by done. done.
    + destruct (rounds _ _ _ _ _ _ _ _ _ _).1.1 as [l'|e]; [|done].
      destruct I6 as [I6 I7]. split; [lia|]. intros Hw Hle.
      destruct (V5 Hw Hle). by apply I7.
  - split; [done|]. split; [|done].
    eexists [_]. split; [done|]. cbn [length]. split; [lia|].
    intros Hall. destruct (Hall (length (sent w))
      (mkRequest (url +:+ "/api.php") (query (Some site) grclimit (c g)))) as [? Hs].
    congruence.
Qed.

Lemma last_log (line : LogLine) (w : World) : last (console (log line w)) = Some line.
Proof. unfold log. cbn [console]. apply last_snoc. Qed.

(** One site: it is started once, sends at most [retry] requests (all of
    them when every request is answered), and closes with the slowest page
    when a page was parsed and with an error line when none was. *)
Lemma check_site_keep (retry : nat) (grclimit : option string)
    (failures : list (string * nat)) (g : Globals) (w : World) (site url : string) :
  let st := check_site net parse elapsed retry grclimit (failures, g, w) (site, url) in
  let parsed_ok :=
    (pages_seen (console st.2) - pages_seen (console w))
    - (parse_failures (console st.2) - parse_failures (console w)) in
  started (console st.2) = started (console w) ++ [site]
  ∧ (∃ more, sent st.2 = sent w ++ more ∧ length more ≤ retry
             ∧ ((∀ k request, is_Some (net k request)) → length more = retry))
  ∧ tests st.1.2 = tests g
  ∧ ((∀ k request, is_Some (net k request)) →
     (parsed_ok = 0 → last (console st.2) = Some (ApiFailed site type_error))
     ∧ (parsed_ok ≠ 0 → ∃ title d, last (console st.2) = Some (Worst title d))).
Proof.
  unfold check_site. cbn zeta.
  pose proof (rounds_keep retry site url grclimit (mkLocals 0 0 None) (reset g)
                (log (SiteStarted site) w)) as Hk.
  pose proof (rounds_counts net parse elapsed retry site url grclimit (mkLocals 0 0 None)
                (reset g) (log (SiteStarted site) w)) as Hc.
  pose proof (λ H, rounds_answered net parse elapsed retry site url grclimit H
                (mkLocals 0 0 None) (reset g) (log (SiteStarted site) w)) as Ha.
  cbn zeta in Hk. rewrite started_log, pages_seen_log in Hk.
  rewrite parse_failures_log in Hc.
  cbn [is_progress is_parse_failed failed i worst sent log console reset tests] in *.
  destruct (rounds _ _ _ _ _ _ _ _ _ _) as [[[l'|e] g'] w']; cbn [fst snd] in *;
    destruct Hk as (K1 & K2 & K3 & K4).
  - destruct K4 as [K4 K5]. destruct K5 as [K5 K6]; [done|lia|].
    destruct (worst l') as [[title d]|] eqn:Hw; cbn [fst snd];
      rewrite started_log, pages_seen_log, parse_failures_log, last_log,
        ?(right_id_L [] (++));
      cbn [is_progress is_parse_failed sent log];
      (split; [done|]); (split; [done|]); (split; [done|]); intros _; split.
    + intros Hz. assert (failed l' = i l') as Hf by lia. apply K5 in Hf. congruence.
    + eauto.
    + done.
    + intros Hnz. destruct K5 as [K5 _]. specialize (K5 eq_refl). lia.
  - rewrite started_log, ?(right_id_L [] (++)). cbn [sent log].
    split; [done|]. split; [done|]. split; [done|].
    intros Hnet. destruct (Ha Hnet) as [? [=]].
Qed.

Lemma sites_keep (retry : nat) (grclimit : option string) (sites : list (string * string)) :
  ∀ failures g w,
    let st := fold_left (check_site net parse elapsed retry grclimit) sites (failures, g, w) in
    started (console st.2) = started (console w) ++ sites.*1
    ∧ (∃ more, sent st.2 = sent w ++ more ∧ length more ≤ retry * length sites
               ∧ ((∀ k request, is_Some (net k request)) →
                  length more = retry * length sites))
    ∧ tests st.1.2 = tests g.
Proof.
  induction sites as [|[site url] sites IH]; intros failures g w; cbn [fold_left].
  { cbn [fst snd fmap list_fmap length]. rewrite (right_id_L [] (++)).
    split; [done|]. split; [|done]. exists []. rewrite (right_id_L [] (++)).
    split; [done|]. cbn [length]. split; intros; lia. }
  pose proof (check_site_keep retry grclimit failures g w site url) as Hs. cbn zeta in Hs.
  destruct (check_site _ _ _ _ _ _ _) as [[f1 g1] w1]. cbn [fst snd] in Hs.
  destruct Hs as (S1 & (more1 & S2 & S3 & S4) & S5 & _).
  specialize (IH f1 g1 w1). cbn zeta in IH. destruct IH as (I1 & (more & I2 & I3 & I4) & I5).
  rewrite fmap_cons. cbn [fst length].
  split; [by rewrite I1, S1, <- (assoc_L (++))|]. split; [|congruence].
  exists (more1 ++ more). rewrite I2, S2, <- (assoc_L (++)), length_app.
  split; [done|]. split; [lia|]. intros Hnet. rewrite S4, I4 by done. lia.
Qed.

Lemma report_keep (failures : list (string * nat)) (w : World) :
  started (console (report failures w).2) = started (console w)
  ∧ sent (report failures w).2 = sent w.
Proof.
  unfold report. destruct failures as [|kv failures]; [done|].
  assert (∀ l t0 w0,
    started (console (fold_left (λ '(total, w) '(site, failed),
                (total + failed, log (SiteFailures site failed) w)) l (t0, w0)).2)
    = started (console w0)
    ∧ sent (fold_left (λ '(total, w) '(site, failed),
                (total + failed, log (SiteFailures site failed) w)) l (t0, w0)).2
      = sent w0) as Hfold.
  { induction l as [|[site n] l IH]; intros t0 w0; cbn [fold_left]; [done|].
    destruct (IH (t0 + n) (log (SiteFailures site n) w0)) as [-> ->].
    by rewrite started_log, (right_id_L [] (++)). }
  destruct (Hfold (kv :: failures) 0 w) as [H1 H2].
  by destruct (fold_left _ _ _) as [total w'].
Qed.

Lemma rounds_first (n : nat) (site url : string) (grclimit : option string)
    (l : Locals) (g : Globals) (w : World) :
  sent (rounds net parse elapsed (S n) site url grclimit l g w).2 !! length (sent w)
  = Some (mkRequest (url +:+ "/api.php") (query (Some site) grclimit (c g))).
Proof.
  cbn [rounds]. unfold getPages. destruct (net _ _) as [response|]; cbn [fst snd sent].
  - pose proof (visits_keep site (simple_pages (query_pages response)) l
                  (mkWorld (sent w ++ [mkRequest (url +:+ "/api.php")
                                         (query (Some site) grclimit (c g))])
                     (console w))) as Hv.
    cbn zeta in Hv. destruct (fold_left _ _ _) as [l1 w1]. cbn [fst snd sent] in Hv.
    destruct Hv as (_ & V2 & _).
    destruct (rounds_keep n site url grclimit l1
                (mkGlobals (continue response) (tests g)) w1) as (_ & (more & -> & _) & _).
    rewrite V2, <- (assoc_L (++)). by apply list_lookup_middle.
  - by apply list_lookup_middle.
Qed.

(** The requests of one site: at most [retry], all of them when every
    request is answered, the first without token. *)
Lemma check_site_block (retry : nat) (grclimit : option string)
    (failures : list (string * nat)) (g : Globals) (w : World) (site url : string) :
  ∃ more,
    sent (check_site net parse elapsed retry grclimit (failures, g, w) (site, url)).2
    = sent w ++ more
    ∧ length more ≤ retry
    ∧ ((∀ k request, is_Some (net k request)) → length more = retry)
    ∧ (retry ≠ 0 →
       head more = Some (mkRequest (url +:+ "/api.php") (query (Some site) grclimit None))).
Proof.
  destruct (check_site_keep retry grclimit failures g w site url)
    as (_ & (more & Hs & Hle & Hall) & _).
  exists more. split; [done|]. split; [done|]. split; [done|].
  intros Hr. destruct retry as [|r]; [done|].
  assert (sent (check_site net parse elapsed (S r) grclimit (failures, g, w) (site, url)).2
          !! length (sent w)
          = Some (mkRequest (url +:+ "/api.php") (query (Some site) grclimit None))) as Hf.
  { unfold check_site. cbn zeta.
    pose proof (rounds_first r site url grclimit (mkLocals 0 0 None) (reset g)
                  (log (SiteStarted site) w)) as H1.
    cbn [sent log reset c] in H1.
    destruct (rounds _ _ _ _ _ _ _ _ _ _) as [[[l'|e] g'] w']; cbn [fst snd] in *.
    - by destruct (worst l') as [[? ?]|].
    - done. }
  rewrite Hs, lookup_app_r, Nat.sub_diag in Hf by lia. by destruct more.
Qed.

Lemma sites_blocks (retry : nat) (grclimit : option string) (sites : list (string * string)) :
  ∀ failures g w,
    ∃ blocks,
      sent (fold_left (check_site net parse elapsed retry grclimit) sites (failures, g, w)).2
      = sent w ++ concat blocks
      ∧ Forall2
          (λ api block,
             length block ≤ retry
             ∧ ((∀ k request, is_Some (net k request)) → length block = retry)
             ∧ (retry ≠ 0 →
                head block
                = Some (mkRequest (api.2 +:+ "/api.php") (query (Some api.1) grclimit None))))
          sites blocks.
Proof.
  induction sites as [|[site url] sites IH]; intros failures g w; cbn [fold_left].
  { exists []. cbn [concat snd]. by rewrite (right_id_L [] (++)). }
  destruct (check_site_block retry grclimit failures g w site url) as (more & Hs & Hb).
  destruct (check_site _ _ _ _ _ _ _) as [[f1 g1] w1]. cbn [snd] in Hs.
  destruct (IH f1 g1 w1) as (blocks & Hbs & Hall).
  exists (more :: blocks). cbn [concat]. rewrite Hbs, Hs, <- (assoc_L (++)).
  split; [done|]. by constructor.
Qed.

(** On the pages of one response the slowest successfully parsed page so
    far is kept: [worst] never gets faster, bounds the time of every page
    parsed, and is either what it was or one of the pages parsed. *)
Lemma visits_worst (site : string) (pages : list SimplePage) :
  ∀ l w,
    let l' := (fold_left (visit parse elapsed site) pages (l, w)).1 in
    (∀ t d, worst l = Some (t, d) → ∃ t' d', worst l' = Some (t', d') ∧ (d <= d')%Q)
    ∧ (∀ k page v, pages !! k = Some page → parse (s_content page) = Normal v →
         ∃ t' d', worst l' = Some (t', d') ∧ (elapsed site (i l + k)%nat <= d')%Q)
    ∧ (worst l' = worst l
       ∨ ∃ k page v, pages !! k = Some page ∧ parse (s_content page) = Normal v
           ∧ worst l' = Some (s_title page, elapsed site (i l + k))).
Proof.
  induction pages as [|page pages IH]; intros l w; cbn [fold_left fst].
  { split; [|split; [|by left]].
    - intros t d ->. exists t, d. split; [done|apply Qle_refl].
    - intros k page v Hk. by rewrite lookup_nil in Hk. }
  pose proof (visit_keep site l w page) as (_ & _ & _ & Hi & _).
  assert (∀ t d, worst l = Some (t, d) →
            ∃ t1 d1, worst (visit parse elapsed site (l, w) page).1 = Some (t1, d1)
                     ∧ (d <= d1)%Q) as Hmono.
  { intros t d Hw. unfold visit. cbn zeta. rewrite Hw.
    destruct (parse (s_content page)); cbn [fst worst].
    - unfold Js.gt. destruct (Qle_bool (elapsed site (i l)) d) eqn:E; cbn [negb].
      + exists t, d. split; [done|apply Qle_refl].
      + eexists _, _. split; [done|].
        apply Qlt_le_weak, Qnot_le_lt. intros H%Qle_bool_iff. congruence.
    - exists t, d. split; [done|apply Qle_refl]. }
  assert (∀ v, parse (s_content page) = Normal v →
            ∃ t1 d1, worst (visit parse elapsed site (l, w) page).1 = Some (t1, d1)
                     ∧ (elapsed site (i l) <= d1)%Q
                     ∧ (worst (visit parse elapsed site (l, w) page).1 = worst l
                        ∨ worst (visit parse elapsed site (l, w) page).1
                          = Some (s_title page, elapsed site (i l)))) as Hnew.
  { intros v Hv. unfold visit. cbn zeta. rewrite Hv. cbn [fst worst].
    destruct (worst l) as [[t d]|].
    - unfold Js.gt. destruct (Qle_bool (elapsed site (i l)) d) eqn:E; cbn [negb].
      + exists t, d. split; [done|]. split; [by apply Qle_bool_iff|by left].
      + eexists _, _. split; [done|]. split; [apply Qle_refl|by right].
    - eexists _, _. split; [done|]. split; [apply Qle_refl|by right]. }
  assert (∀ e, parse (s_content page) = Throw e →
            worst (visit parse elapsed site (l, w) page).1 = worst l) as Hfail.
  { intros e He. unfold visit. cbn zeta. by rewrite He. }
  destruct (visit parse elapsed site (l, w) page) as [l1 w1]. cbn [fst] in *.
  destruct (IH l1 w1) as (I1 & I2 & I3). cbn zeta in *. split; [|split].
  - intros t d Hw. destruct (Hmono t d Hw) as (t1 & d1 & H1 & Hle1).
    destruct (I1 t1 d1 H1) as (t2 & d2 & H2 & Hle2).
    exists t2, d2. split; [done|]. by eapply Qle_trans.
  - intros [|k] page' v Hk Hv.
    + injection Hk as <-. destruct (Hnew v Hv) as (t1 & d1 & H1 & Hle1 & _).
      destruct (I1 t1 d1 H1) as (t2 & d2 & H2 & Hle2).
      exists t2, d2. split; [done|]. rewrite Nat.add_0_r. by eapply Qle_trans.
    + destruct (I2 k page' v Hk Hv) as (t2 & d2 & H2 & Hle2).
      exists t2, d2. split; [done|]. by rewrite Hi, Nat.add_succ_comm in Hle2.
  - destruct I3 as [I3|(k & page' & v & Hk & Hv & I3)].
    + destruct (parse (s_content page)) as [v|e] eqn:Hp.
      * destruct (Hnew v eq_refl) as (_ & _ & _ & _ & [Hsame|Hthis]).
        -- left. congruence.
        -- right. exists 0, page, v. rewrite Nat.add_0_r. split; [done|]. split; [done|].
           congruence.
      * left. rewrite I3. by eapply Hfail.
    + right. exists (S k), page', v. split; [done|]. split; [done|].
      by rewrite I3, Hi, Nat.add_succ_comm.
Qed.

(** The counter [failed] grows by the pages of the response whose parse
    throws. *)
Lemma visits_failed (site : string) (pages : list SimplePage) :
  ∀ l w,
    failed (fold_left (visit parse elapsed site) pages (l, w)).1
    = failed l
      + length (List.filter
                  (λ page, match parse (s_content page) with
                           | Throw _ => true
                           | Normal _ => false
                           end) pages).
Proof.
  induction pages as [|page pages IH]; intros l w; cbn [fold_left List.filter]; [simpl; lia|].
  assert (failed (visit parse elapsed site (l, w) page).1
          = failed l + (if match parse (s_content page) with
                           | Throw _ => true
                           | Normal _ => false
                           end then 1 else 0)) as Hv.
  { unfold visit. destruct (parse (s_content page)); cbn [fst failed]; lia. }
  destruct (visit parse elapsed site (l, w) page) as [l1 w1]. cbn [fst] in Hv.
  rewrite IH, Hv. destruct (parse (s_content page)); cbn [length]; lia.
Qed.

(** What the pass over the pages of one response writes to the console:
    for each page its number and title, followed by the error line when
    its parse throws. *)
Lemma visits_console (site : string) (pages : list SimplePage) :
  ∀ l w,
    console (fold_left (visit parse elapsed site) pages (l, w)).2
    = console w
      ++ concat
           (imap
              (λ k page,
                 Progress (i l + k) (s_title page)
                 :: match parse (s_content page) with
                    | Throw e => [ParseFailed (s_title page) e]
                    | Normal _ => []
                    end)
              pages).
Proof.
  induction pages as [|page pages IH]; intros l w; cbn [fold_left].
  { cbn [imap concat snd]. by rewrite (right_id_L [] (++)). }
  assert (console (visit parse elapsed site (l, w) page).2
          = console w
            ++ Progress (i l + 0) (s_title page)
               :: match parse (s_content page) with
                  | Throw e => [ParseFailed (s_title page) e]
                  | Normal _ => []
                  end
          ∧ i (visit parse elapsed site (l, w) page).1 = S (i l)) as [Hc Hi].
  { unfold visit. rewrite Nat.add_0_r.
    destruct (parse (s_content page)); cbn [fst snd log console i]; [done|].
    by rewrite <- (assoc_L (++)). }
  destruct (visit parse elapsed site (l, w) page) as [l1 w1]. cbn [fst snd] in Hc, Hi.
  rewrite IH, Hc, Hi, imap_cons. cbn [concat]. rewrite <- !(assoc_L (++)).
  do 3 f_equal. apply imap_ext. intros k page' _. cbn.
  by rewrite Nat.add_succ_r.
Qed.

End execute_more.

(** X9: [execute] starts every site exactly once, in the order of the
    list, whatever the network answers and whatever the parser does, and it
    leaves the [tests] array alone. *)
Theorem execute_visits_every_site (net : Index.Network)
    (parse : string → Index.completion string) (elapsed : string → nat → Q)
    (sites : list (string * string)) (retry : option nat) (grclimit : option string)
    (g : Index.Globals) (w : Index.World) :
  let res := Index.execute_on net parse elapsed sites retry grclimit g w in
  Index.started (Index.console res.2) = Index.started (Index.console w) ++ sites.*1
  ∧ Index.tests res.1.2 = Index.tests g.
Proof.
  unfold Index.execute_on. cbn zeta.
  pose proof (sites_keep net parse elapsed (default 10 retry) grclimit sites [] g w) as Hs.
  cbn zeta in Hs. destruct (fold_left _ _ _) as [[failures g'] w']. cbn [fst snd] in Hs.
  destruct (report_keep failures w') as [R1 R2].
  destruct (Index.report failures w') as [r w'']. cbn [fst snd] in *.
  rewrite R1. by destruct Hs as (-> & _ & ->).
Qed.

(** X10: the requests [execute] sends come after those sent before, one
    block per site in the order of the list; a block holds at most [retry]
    requests, exactly that many when every request is answered, and its
    first request carries no continuation token: the token of one site
    never reaches the next. *)
Theorem execute_request_blocks (net : Index.Network)
    (parse : string → Index.completion string) (elapsed : string → nat → Q)
    (sites : list (string * string)) (retry : option nat) (grclimit : option string)
    (g : Index.Globals) (w : Index.World) :
  ∃ blocks,
    Index.sent (Index.execute_on net parse elapsed sites retry grclimit g w).2
    = Index.sent w ++ concat blocks
    ∧ Forall2
        (λ api block,
           length block ≤ default 10 retry
           ∧ ((∀ k request, is_Some (net k request)) → length block = default 10 retry)
           ∧ (default 10 retry ≠ 0 →
              head block
              = Some (Index.mkRequest (api.2 +:+ "/api.php")
                        (Index.query (Some api.1) grclimit None))))
        sites blocks.
Proof.
  unfold Index.execute_on.
  destruct (sites_blocks net parse elapsed (default 10 retry) grclimit sites [] g w)
    as (blocks & Hs & Hall).
  exists blocks. split; [|done].
  destruct (fold_left _ _ _) as [[failures g'] w']. cbn [snd] in Hs.
  destruct (report_keep failures w') as [_ R2].
  destruct (Index.report failures w') as [r w'']. cbn [fst snd] in *. congruence.
Qed.

(** X11: when every request is answered but no page of a site was parsed
    (each page seen failed, the responses held no wikitext page, or [retry]
    is 0), the site's pass ends with the error line of the [catch] for API
    failures, carrying the TypeError of reading [worst]; as soon as one
    page was parsed it ends with the slowest-page line. *)
Theorem site_closing_line (net : Index.Network)
    (parse : string → Index.completion string) (elapsed : string → nat → Q)
    (retry : nat) (grclimit : option string) (failures : list (string * nat))
    (g : Index.Globals) (w : Index.World) (site url : string) :
  (∀ k request, is_Some (net k request)) →
  let st :=
    Index.check_site net parse elapsed retry grclimit (failures, g, w) (site, url) in
  let parsed_ok :=
    (Index.pages_seen (Index.console st.2) - Index.pages_seen (Index.console w))
    - (Index.parse_failures (Index.console st.2) - Index.parse_failures (Index.console w)) in
  (parsed_ok = 0 →
   last (Index.console st.2) = Some (Index.ApiFailed site Index.type_error))
  ∧ (parsed_ok ≠ 0 → ∃ title d, last (Index.console st.2) = Some (Index.Worst title d)).
Proof.
  intros Hnet.
  by destruct (check_site_keep net parse elapsed retry grclimit failures g w site url)
    as (_ & _ & _ & H); apply H.
Qed.

Lemma site_closing_line_witness :
  let net : Index.Network := λ _ _, Some (Index.mkResponse [] None) in
  let st :=
    Index.check_site net (λ s, Index.Normal s) (λ _ _, 1%Q) 2 None
      ([], Index.mkGlobals None (Index.load []), Index.mkWorld [] [])
      ("Wikipedia", "https://en.wikipedia.org/w") in
  let parsed_ok :=
    (Index.pages_seen (Index.console st.2) - 0)
    - (Index.parse_failures (Index.console st.2) - 0) in
  (parsed_ok = 0 →
   last (Index.console st.2) = Some (Index.ApiFailed "Wikipedia" Index.type_error))
  ∧ (parsed_ok ≠ 0 → ∃ title d, last (Index.console st.2) = Some (Index.Worst title d)).
Proof.
  apply (site_closing_line (λ _ _, Some (Index.mkResponse [] None))
           (λ s, Index.Normal s) (λ _ _, 1%Q) 2 None []
           (Index.mkGlobals None (Index.load [])) (Index.mkWorld [] [])
           "Wikipedia" "https://en.wikipedia.org/w").
  intros k request. vm_compute. eauto.
Defined.

(** X12: over the pages of one response, [worst] ends as the slowest page
    parsed so far: it never gets faster, its time is at least that of
    every page of the response that was parsed, and it is either what it
    was before or a parsed page of the response with that page's time. *)
Theorem worst_is_slowest (parse : string → Index.completion string)
    (elapsed : string → nat → Q) (site : string) (pages : list Index.SimplePage)
    (l : Index.Locals) (w : Index.World) :
  let l' := (fold_left (Index.visit parse elapsed site) pages (l, w)).1 in
  (∀ t d, Index.worst l = Some (t, d) →
     ∃ t' d', Index.worst l' = Some (t', d') ∧ (d <= d')%Q)
  ∧ (∀ k page v, pages !! k = Some page → parse (Index.s_content page) = Index.Normal v →
       ∃ t' d', Index.worst l' = Some (t', d')
                ∧ (elapsed site (Index.i l + k)%nat <= d')%Q)
  ∧ (Index.worst l' = Index.worst l
     ∨ ∃ k page v, pages !! k = Some page ∧ parse (Index.s_content page) = Index.Normal v
         ∧ Index.worst l' = Some (Index.s_title page, elapsed site (Index.i l + k))).
Proof. apply visits_worst. Qed.


(** X13: a page whose parse throws does not end the pass over a response:
    the console gets, for each page in order, the line with the next
    consecutive number and the page's title, followed by the error line
    with the title and the value thrown when its parse throws; the counter
    [i] grows by the number of pages and [failed] by the number of pages
    whose parse throws, and no request is sent meanwhile. *)
Theorem parse_errors_contained (parse : string → Index.completion string)
    (elapsed : string → nat → Q) (site : string) (pages : list Index.SimplePage)
    (l : Index.Locals) (w : Index.World) :
  let st := fold_left (Index.visit parse elapsed site) pages (l, w) in
  let throwing :=
    length (List.filter
              (λ page, match parse (Index.s_content page) with
                       | Index.Throw _ => true
                       | Index.Normal _ => false
                       end) pages) in
  Index.console st.2
  = Index.console w
    ++ concat
         (imap
            (λ k page,
               Index.Progress (Index.i l + k) (Index.s_title page)
               :: match parse (Index.s_content page) with
                  | Index.Throw e => [Index.ParseFailed (Index.s_title page) e]
                  | Index.Normal _ => []
                  end)
            pages)
  ∧ Index.i st.1 = Index.i l + length pages
  ∧ Index.pages_seen (Index.console st.2)
    = Index.pages_seen (Index.console w) + length pages
  ∧ Index.failed st.1 = Index.failed l + throwing
  ∧ Index.parse_failures (Index.console st.2)
    = Index.parse_failures (Index.console w) + throwing
  ∧ Index.sent st.2 = Index.sent w.
Proof.
  cbn zeta.
  pose proof (visits_keep parse elapsed site pages l w) as (_ & Hs & Hp & Hi & _).
  pose proof (visits_count parse elapsed site pages l w) as [Hc _].
  pose proof (visits_failed parse elapsed site pages l w) as Hf.
  split; [apply visits_console|].
  split; [done|]. split; [done|]. split; [done|]. split; [lia|done].
Qed.

(** * Further properties of the tokenizer *)

Section split_more.
Import Index.

(** A token is the part of the input between two positions with no cut
    between them. *)
Lemma slices_atoms (str : list ascii) (cut : nat → bool) (k : nat) :
  ∀ p q, p < q → q + k = length str →
    Forall
      (λ t, ∃ a b, p ≤ a ∧ a < b ≤ length str ∧ t = take (b - a) (drop a str)
                   ∧ ∀ j, a < j < b → q ≤ j → cut j = false)
      (slice_at str p (List.filter cut (seq q k))).
Proof.
  induction k as [|k IH]; intros p q Hpq Hn; simpl.
  - constructor; [|constructor]. exists p, (length str).
    split; [done|]. split; [lia|]. split.
    + symmetry. apply take_ge. rewrite length_drop. lia.
    + intros j ? ?. lia.
  - destruct (cut q) eqn:Hq.
    + simpl. constructor.
      * exists p, q. split; [done|]. split; [lia|]. split; [done|]. intros j ? ?. lia.
      * eapply Forall_impl; [apply (IH q (S q)); lia|].
        intros t (a & b & Hpa & Hab & Ht & Hcut). exists a, b.
        split; [lia|]. split; [done|]. split; [done|].
        intros j Hj Hqj. apply Hcut; lia.
    + eapply Forall_impl; [apply (IH p (S q)); lia|].
      intros t (a & b & Hpa & Hab & Ht & Hcut). exists a, b.
      split; [done|]. split; [done|]. split; [done|].
      intros j Hj Hqj. destruct (decide (j = q)) as [->|]; [done|]. apply Hcut; lia.
Qed.

(** A boundary inside a part of the input is a boundary of the input. *)
Lemma boundary_inside (cls : ascii → bool) (pre t post : list ascii) (j : nat) :
  0 < j < length t → boundary cls t j = true →
  boundary cls (pre ++ t ++ post) (length pre + j) = true.
Proof.
  intros Hj. unfold boundary.
  rewrite take_app_add, drop_app_add, take_app_le, drop_app_le by lia.
  assert (take j t ≠ []) as Ha.
  { intros H%(f_equal length). rewrite length_take_le in H by lia. simpl in H. lia. }
  assert (drop j t ≠ []) as Hb.
  { intros H%(f_equal length). rewrite length_drop in H. simpl in H. lia. }
  rewrite !orb_true_iff, !andb_true_iff, !negb_true_iff, !bool_decide_eq_true,
    !bool_decide_eq_false.
  intros [[Hs _]|[_ Ho]].
  - left. split; [by apply suffix_app_r|]. by destruct (drop j t).
  - right. split; [by destruct pre, (take j t)|].
    by destruct (drop j t) as [|ch0 [|ch rest]].
Qed.

Lemma filter_none {A : Type} (keep : A → bool) (l : list A) :
  (∀ x, In x l → keep x = false) → List.filter keep l = [].
Proof.
  induction l as [|x l IH]; intros H; [done|]. simpl.
  rewrite (H x) by by left. apply IH. intros y ?. apply H. by right.
Qed.

(** A token has no boundary inside: splitting it again gives the token. *)
Lemma split_where_atoms (cls : ascii → bool) (str t : list ascii) :
  t ∈ split_where cls str → split_where cls t = [t].
Proof.
  intros Hin. destruct str as [|ch0 str0].
  { apply list_elem_of_singleton in Hin as ->. done. }
  set (str := ch0 :: str0) in *.
  pose proof (slices_atoms str (boundary cls str) (length str - 1) 0 1) as Hall.
  rewrite Forall_forall in Hall.
  destruct (Hall ltac:(lia) ltac:(simpl; lia) t Hin) as (a & b & _ & Hab & Ht & Hcut).
  assert (length t = b - a) as Hlen.
  { rewrite Ht, length_take_le; [done|]. rewrite length_drop. lia. }
  assert (str = take a str ++ t ++ drop b str) as Hstr.
  { rewrite <- (take_drop a str) at 1. f_equal.
    rewrite <- (take_drop (b - a) (drop a str)) at 1. rewrite <- Ht. f_equal.
    rewrite drop_drop. f_equal. lia. }
  unfold split_where. rewrite filter_none; [done|].
  intros j [Hj1 Hj2]%in_seq.
  destruct (boundary cls t j) eqn:Hb; [|done].
  apply (boundary_inside cls (take a str) t (drop b str)) in Hb; [|lia].
  rewrite <- Hstr, length_take_le in Hb by lia.
  rewrite Hcut in Hb; [done|lia|lia].
Qed.

(** Every boundary has a [<] in the input. *)
Lemma boundary_lt_sign (cls : ascii → bool) (str : list ascii) (q : nat) :
  boundary cls str q = true → lt_sign ∈ str.
Proof.
  unfold boundary.
  rewrite !orb_true_iff, !andb_true_iff, !negb_true_iff, !bool_decide_eq_true,
    !bool_decide_eq_false.
  intros H.
  rewrite <- (take_drop q str). apply elem_of_app.
  destruct H as [[[k Hs] _]|[_ Ho]].
  - left. rewrite Hs. apply elem_of_app. right. by left.
  - right. destruct (drop q str) as [|ch0 [|ch rest]]; try done. simpl in Ho.
    apply andb_true_iff in Ho as [->%bool_decide_eq_true _]. by left.
Qed.

Lemma js_split_where (s : string) : js_split s = of_units <$> split_where is_word (units s).
Proof. unfold js_split. by rewrite regexp_split_where. Qed.

(** The tokens put together are the input. *)
Lemma js_split_concat (s : string) : String.concat "" (js_split s) = s.
Proof. by rewrite js_split_where, concat_of_units, concat_split_where, of_units_units. Qed.

(** Two strings with the same tokens are the same string. *)
Lemma js_split_inj (a b : string) : js_split a = js_split b → a = b.
Proof.
  intros H%(f_equal (String.concat "")). by rewrite !js_split_concat in H.
Qed.

End split_more.

(** X14: [split] always gives at least one token; a token is empty only
    for the empty input, whose one token is the empty string; splitting a
    token again gives the token; an input without [<] is its own single
    token; and two inputs with the same tokens are equal, so that comparing
    token lists is comparing the strings. *)
Theorem split_tokens (s : string) :
  Index.js_split s ≠ []
  ∧ ("" ∈ Index.js_split s ↔ s = "")
  ∧ (∀ t, t ∈ Index.js_split s → Index.js_split t = [t])
  ∧ (Index.lt_sign ∉ Index.units s → Index.js_split s = [s])
  ∧ (∀ s', Index.js_split s = Index.js_split s' ↔ s = s').
Proof.
  split; [|split; [|split; [|split]]].
  - rewrite js_split_where. unfold Index.split_where.
    by destruct (List.filter _ _).
  - split; [|by intros ->; left].
    rewrite js_split_where. intros (u & Hu & Hin)%list_elem_of_fmap.
    destruct (decide (Index.units s = [])) as [He|Hne]; [by apply units_nil|].
    pose proof (split_where_nonempty Index.is_word _ Hne) as Hall.
    rewrite Forall_forall in Hall. destruct (Hall u Hin).
    by rewrite <- (units_of_units u), <- Hu.
  - intros t. rewrite !js_split_where. intros (u & -> & Hin)%list_elem_of_fmap.
    by rewrite units_of_units, (split_where_atoms _ _ _ Hin).
  - intros Hno. rewrite js_split_where. unfold Index.split_where.
    rewrite filter_none;
      [change ([Index.of_units (Index.units s)] = [s]); by rewrite of_units_units|].
    intros q _. destruct (Index.boundary _ _ q) eqn:Hb; [|done].
    by apply boundary_lt_sign in Hb.
  - intros s'. split; [apply js_split_inj|by intros ->].
Qed.

(** * Further properties of the reconciler *)

Section reconciler_more.
Import Index.

Variable results : list Test.
Variable parse : string → completion string.

(** The callback registered for an entry, if any. *)
Lemma register_closed (l : list Test) (k : nat) :
  k ≤ length l →
  register (load l) k
  = reverse
      (omap
         (λ i, l !! i ≫= λ t,
            match wikitext t with
            | Some (String ch w) => Some (mkClosure i i (String ch w) (desc t))
            | _ => None
            end)
         (seq 0 k)).
Proof.
  induction k as [|i IH]; intros Hk; [done|].
  rewrite seq_S, omap_app, reverse_app. cbn [register omap list_omap plus].
  change (arr (load l)) with (seq 0 (length l)). change (objs (load l)) with l.
  rewrite lookup_seq_lt by lia. cbn [plus].
  rewrite <- IH by lia.
  destruct (l !! i) as [t|]; [|done]. cbn [mbind option_bind].
  by destruct (wikitext t) as [[|ch w]|].
Qed.

Lemma register_length (l : list Test) (k : nat) :
  k ≤ length l →
  length (register (load l) k) = length (filter (λ t, Js.truthy (wikitext t)) (take k l)).
Proof.
  induction k as [|i IH]; intros Hk; [done|].
  destruct (lookup_lt_is_Some_2 l i) as [t Ht]; [lia|].
  rewrite (take_S_r _ _ _ Ht), filter_app, length_app, <- IH by lia.
  cbn [register]. change (arr (load l)) with (seq 0 (length l)).
  change (objs (load l)) with l. rewrite lookup_seq_lt by lia. cbn [plus]. rewrite Ht.
  rewrite filter_cons, filter_nil.
  destruct (wikitext t) as [[|ch w]|]; simpl; lia.
Qed.

(** When the callback of an entry completes normally. *)
Lemma outcome_of_normal (cl : Closure) :
  outcome_of results parse cl = Normal ()
  ↔ ∃ s r, parse (cl_wikitext cl) = Normal s
           ∧ find_result results (cl_desc cl) = Some r ∧ parsed r = Some s.
Proof.
  unfold outcome_of. destruct (parse (cl_wikitext cl)) as [s|e].
  - case_bool_decide as Heq.
    + split; [intros _|done]. unfold split in Heq.
      destruct (find_result results (cl_desc cl)) as [r|]; [|done].
      destruct (parsed r) as [s'|] eqn:Hp; [|done].
      injection Heq as Heq%js_split_inj. subst s'. eauto.
    + split; [done|]. intros (s' & r & [= <-] & Hr & Hp).
      destruct Heq. unfold split. by rewrite Hr, Hp.
  - split; [done|]. by intros (? & ? & ? & _).
Qed.

End reconciler_more.

(** X15: the test of an entry with a non-empty [wikitext] has one outcome,
    and it passes exactly when the parser returns and the first stored
    result with the entry's description has that very output as its
    [parsed]; it fails when the parser throws, when no stored result has
    the description, and when that result has no [parsed] or another
    one. *)
Theorem test_passes_iff (results : list Index.Test)
    (parse : string → Index.completion string) (corpus : list Index.Test)
    (i : nat) (t : Index.Test) (ch : ascii) (w0 : string) :
  corpus !! i = Some t → Index.wikitext t = Some (String ch w0) →
  let w := String ch w0 in
  let R := Index.reconcile results parse corpus in
  let cl := Index.mkClosure i i w (Index.desc t) in
  (∃ r, ∀ r', (cl, r') ∈ Index.outcomes R ↔ r' = r)
  ∧ ((cl, Index.Normal ()) ∈ Index.outcomes R
     ↔ ∃ s e, parse w = Index.Normal s
              ∧ Index.find_result results (Index.desc t) = Some e
              ∧ Index.parsed e = Some s).
Proof.
  intros Ht Hw w R cl. unfold R. rewrite reconcile_closed. cbn [Index.outcomes].
  assert (cl ∈ Index.register (Index.load corpus) (length corpus)) as Hcl.
  { apply elem_of_register; [done|]. exists i, t, ch, w0.
    split; [by apply lookup_lt_is_Some; eauto|done]. }
  assert (∀ r', (cl, r') ∈ (λ cl, (cl, Index.outcome_of results parse cl))
                            <$> Index.register (Index.load corpus) (length corpus)
                ↔ r' = Index.outcome_of results parse cl) as Hout.
  { intros r'. rewrite list_elem_of_fmap. split.
    - by intros (cl' & [= <- ->] & _).
    - intros ->. eauto. }
  split; [by exists (Index.outcome_of results parse cl)|].
  rewrite Hout. split.
  - intros H. symmetry in H. by apply outcome_of_normal in H.
  - intros H. symmetry. by apply outcome_of_normal.
Qed.

Lemma test_passes_iff_witness :
  let parse : string → Index.completion string := λ w, Index.Normal ("<p>" +:+ w +:+ "</>") in
  let results :=
    [Index.mkTest "Plain text" None (Some "text") (Some "<p>text</>") None None None] in
  let corpus := [Index.mkTest "Plain text" None (Some "text") None None None None] in
  let R := Index.reconcile results parse corpus in
  let cl := Index.mkClosure 0 0 "text" "Plain text" in
  (∃ r, ∀ r', (cl, r') ∈ Index.outcomes R ↔ r' = r)
  ∧ ((cl, Index.Normal ()) ∈ Index.outcomes R
     ↔ ∃ s e, parse "text" = Index.Normal s
              ∧ Index.find_result results "Plain text" = Some e
              ∧ Index.parsed e = Some s).
Proof.
  exact (test_passes_iff
           [Index.mkTest "Plain text" None (Some "text") (Some "<p>text</>") None None None]
           (λ w, Index.Normal ("<p>" +:+ w +:+ "</>"))
           [Index.mkTest "Plain text" None (Some "text") None None None None]
           0 (Index.mkTest "Plain text" None (Some "text") None None None None)
           "t"%char "ext" eq_refl eq_refl).
Defined.

(** X16: the suite has one test per entry with a non-empty [wikitext] and
    none for the others; the tests are registered, and so run, from the
    last entry of the corpus to the first, and each captures the index, the
    [wikitext] and the [desc] of its entry. *)
Theorem tests_in_reverse_order (results : list Index.Test)
    (parse : string → Index.completion string) (corpus : list Index.Test) :
  let R := Index.reconcile results parse corpus in
  (Index.outcomes R).*1
  = reverse
      (omap
         (λ i, corpus !! i ≫= λ t,
            match Index.wikitext t with
            | Some (String ch w) => Some (Index.mkClosure i i (String ch w) (Index.desc t))
            | _ => None
            end)
         (seq 0 (length corpus)))
  ∧ length (Index.outcomes R)
    = length (filter (λ t, Js.truthy (Index.wikitext t)) corpus).
Proof.
  cbn zeta. rewrite reconcile_closed. cbn [Index.outcomes].
  rewrite <- list_fmap_compose, length_fmap.
  split.
  - rewrite <- register_closed by done. by rewrite <- (list_fmap_id (Index.register _ _)) at 2.
  - rewrite register_length by done. by rewrite firstn_all.
Qed.
